(** * A Redis-backed token bucket: the engine of [test.py]

    The development embeds [TokenBucket] (methods [check_redis_connection],
    [get_stats], [allow_request]) and the exception [RateLimitExceeded].

    Conventions of the embedding.
    - Python numbers are rationals ([Q]) with exact arithmetic; IEEE rounding,
      [inf] and [nan] are outside the model. The statements are kept to what
      holds whichever way a sum, product or quotient is rounded: orderings,
      bounds and the flow of control, not the last digit of a computed
      value.
    - [time.time()] is an argument [now] of each method; the store evaluates
      key expiry at that same instant.
    - The module-level client [r] is an explicit store state threaded through
      a state-and-exception monad.
    - Calls to [logger] write to the logging subsystem only and are left out. *)

From Stdlib Require Import ZArith QArith Qround Lqa DecimalString.
From stdpp Require Import base option list gmap strings.

Local Open Scope Z_scope.
Local Open Scope string_scope.

(** ** Python values and exceptions *)

(** Exceptions the redis client raises ([redis.exceptions]); [TimeoutError]
    and [ResponseError] are not subclasses of [ConnectionError];
    [OtherError] stands for whatever else the client lets escape. *)
Inductive redis_error :=
| ConnectionError (msg : string)
| TimeoutError (msg : string)
| ResponseError (msg : string)
| OtherError (cls msg : string).   (* any other exception class *)

(** Subclasses of [Exception] that can arise in the engine.
    [RateLimitExceeded] is recorded by its two constructor arguments. *)
Inductive exn :=
| RedisError (e : redis_error)
| ValueError (msg : string)
| TypeError (msg : string)
| IndexError
| ZeroDivisionError
| Exception_ (msg : string)
| RateLimitExceeded (detail : string) (retry_after : Z).

(** [RateLimitExceeded.__init__]: the attributes handed to [HTTPException]. *)
Definition status_code (e : exn) : option Z :=
  match e with RateLimitExceeded _ _ => Some 429 | _ => None end.

Definition str_int (z : Z) : string := NilZero.string_of_int (Z.to_int z).

Definition headers (e : exn) : option (list (string * string)) :=
  match e with
  | RateLimitExceeded _ retry_after =>
      if Z.eqb retry_after 0 then None
      else Some [("Retry-After", str_int retry_after)]
  | _ => None
  end.

(** A string held in a hash field and decoded by the client, seen through
    the two things the engine does with it: the truth test [if data[i]] and
    the conversion [float(data[i])]. *)
Inductive text :=
| Numeral (q : Q)      (* non-empty, [float] reads it as [q] *)
| Blank                (* the empty string *)
| Junk (s : string).   (* non-empty, [float] rejects it *)

(** Values of the dictionary returned by [get_stats]. *)
Inductive pyval :=
| PyNum (q : Q)
| PyStr (s : string).

Inductive outcome (A : Type) :=
| Return (a : A)
| Raise (e : exn).
Arguments Return {A} a.
Arguments Raise {A} e.

(** ** The store *)

(** A hash with its time of expiry, if one is set. *)
Record entry := Entry { fields : gmap string text; expires : option Q }.

Inductive command :=
| PING
| HMGET (key : string) (names : list string)
| HSET (key : string) (mapping : list (string * text))
| EXPIRE (key : string) (seconds : Z).

(** [db] is the keyspace. [faults n] tells whether the [n]-th command sent
    over the connection fails and with which error; a failed command has no
    effect on [db]. [history] lists the commands sent so far, oldest first,
    each with whether it succeeded. *)
Record Redis := MkRedis {
  db : gmap string entry;
  faults : nat -> option redis_error;
  history : list (command * bool)
}.

Definition Qltb (x y : Q) : bool := negb (Qle_bool y x).

Definition alive (now : Q) (e : entry) : bool :=
  match expires e with
  | None => true
  | Some t => Qltb now t
  end.

(** The hash stored under [key] that has not expired at [now]. *)
Definition live (now : Q) (key : string) (d : gmap string entry) : option entry :=
  match d !! key with
  | Some e => if alive now e then Some e else None
  | None => None
  end.

(** ** State and exceptions *)

Definition M (A : Type) : Type := Redis -> outcome A * Redis.

Definition ret {A} (a : A) : M A := fun s => (Return a, s).

Definition raise {A} (e : exn) : M A := fun s => (Raise e, s).

Definition bind {A B} (m : M A) (k : A -> M B) : M B :=
  fun s =>
    match m s with
    | (Return a, s') => k a s'
    | (Raise e, s') => (Raise e, s')
    end.

(** [try: m except e: h e] *)
Definition try_except {A} (m : M A) (h : exn -> M A) : M A :=
  fun s =>
    match m s with
    | (Return a, s') => (Return a, s')
    | (Raise e, s') => h e s'
    end.

Notation "'do' x <- m ; k" := (bind m (fun x => k))
  (at level 10, x name, m at level 100, k at level 200).

(** Sending command [c]: consult the fault schedule, then run [run] on the
    keyspace. *)
Definition send {A} (c : command)
    (run : gmap string entry -> A * gmap string entry) : M A :=
  fun s =>
    match faults s (length (history s)) with
    | Some e =>
        (Raise (RedisError e),
         MkRedis (db s) (faults s) (history s ++ [(c, false)]))
    | None =>
        let '(a, d) := run (db s) in
        (Return a, MkRedis d (faults s) (history s ++ [(c, true)]))
    end.

Definition ping : M bool :=
  send PING (fun d => (true, d)).

(** [r.hmget(key, *names)]: one reply per name, [None] for a missing field
    or key. *)
Definition hmget (now : Q) (key : string) (names : list string)
    : M (list (option text)) :=
  send (HMGET key names)
    (fun d =>
       (map (fun f => match live now key d with
                      | Some e => fields e !! f
                      | None => None
                      end) names,
        d)).

(** [r.hset(key, mapping=...)]: creates the hash if needed, keeps a running
    expiry, returns the number of fields added. *)
Definition hset (now : Q) (key : string) (mapping : list (string * text))
    : M Z :=
  send (HSET key mapping)
    (fun d =>
       let old := match live now key d with
                  | Some e => e
                  | None => Entry ∅ None
                  end in
       let added := filter (fun p => bool_decide (fields old !! p.1 = None)) mapping in
       (Z.of_nat (length added),
        <[key := Entry (foldl (fun h p => <[p.1 := p.2]> h) (fields old) mapping)
                       (expires old)]> d)).

(** [r.expire(key, seconds)]: true when the key exists. *)
Definition expire (now : Q) (key : string) (seconds : Z) : M bool :=
  send (EXPIRE key seconds)
    (fun d =>
       match live now key d with
       | Some e => (true, <[key := Entry (fields e) (Some (now + inject_Z seconds)%Q)]> d)
       | None => (false, d)
       end).

(** ** Python built-ins used by the engine *)

(** Truth value of a reply: [None] and the empty string are false. *)
Definition truthy (v : option text) : bool :=
  match v with
  | None => false
  | Some Blank => false
  | Some _ => true
  end.

(** [float(v)] *)
Definition float (v : option text) : M Q :=
  match v with
  | Some (Numeral q) => ret q
  | Some Blank => raise (ValueError "could not convert string to float: ''")
  | Some (Junk s) => raise (ValueError ("could not convert string to float: " ++ s))
  | None => raise (TypeError "float() argument must be a string or a real number")
  end.

(** [data[i]] *)
Definition item {A} (data : list A) (i : nat) : M A :=
  match data !! i with
  | Some v => ret v
  | None => raise IndexError
  end.

(** [min(a, b)]: [b] when [b < a], else [a]. *)
Definition min_ (a b : Q) : Q := if Qltb b a then b else a.

(** [a / b] *)
Definition truediv (a b : Q) : M Q :=
  if Qeq_bool b 0 then raise ZeroDivisionError else ret (a / b)%Q.

(** [int(x)]: truncation towards zero. *)
Definition int (x : Q) : Z := Z.quot (Qnum x) (Zpos (Qden x)).

(** [round(x, 2)]: to the nearest hundredth, ties to the even one. *)
Definition round2 (x : Q) : Q :=
  let y := (x * 100)%Q in
  let f := Qfloor y in
  let r := (y - inject_Z f)%Q in
  let up := if Qltb r (1 # 2) then false
            else if Qltb (1 # 2) r then true
            else Z.odd f in
  (inject_Z (if up then f + 1 else f) / 100)%Q.

(** ** The engine *)

Record TokenBucket := MkTokenBucket {
  capacity : Q;
  refill_rate : Q   (* tokens per second *)
}.

Definition bucket_key (ip : string) : string := "bucket:" ++ ip.

Definition check_redis_connection (self : TokenBucket) : M bool :=
  try_except
    (do _ <- ping ;
     ret true)
    (fun e =>
       match e with
       | RedisError (ConnectionError _) => raise (Exception_ "Redis connection failed")
       | _ => raise e
       end).

Definition get_stats (self : TokenBucket) (now : Q) (ip : string)
    : M (list (string * pyval)) :=
  let key := bucket_key ip in
  try_except
    (do data <- hmget now key ["tokens"; "last"] ;
     do d0 <- item data 0 ;
     match d0 with
     | None =>
         ret [("tokens_available", PyNum (capacity self));
              ("capacity", PyNum (capacity self));
              ("refill_rate", PyNum (refill_rate self));
              ("status", PyStr "new")]
     | Some _ =>
         do tokens <- float d0 ;
         do d1 <- item data 1 ;
         do last <- (if truthy d1 then float d1 else ret now) ;
         let delta := (now - last)%Q in
         let current_tokens := min_ (capacity self) (tokens + delta * refill_rate self)%Q in
         ret [("tokens_available", PyNum (round2 current_tokens));
              ("capacity", PyNum (capacity self));
              ("refill_rate", PyNum (refill_rate self));
              ("last_request", PyNum last);
              ("time_since_last", PyNum (round2 delta));
              ("status", PyStr "active")]
     end)
    (fun e => raise e).

(** The body of the [try] block of [allow_request]. *)
Definition allow_body (self : TokenBucket) (now : Q) (key : string) : M bool :=
  do data <- hmget now key ["tokens"; "last"] ;
  do d0 <- item data 0 ;
  do tokens <- (if truthy d0 then float d0 else ret (capacity self)) ;
  do d1 <- item data 1 ;
  do last <- (if truthy d1 then float d1 else ret now) ;
  let delta := (now - last)%Q in
  let tokens := min_ (capacity self) (tokens + delta * refill_rate self)%Q in
  if Qltb tokens 1 then
    do q <- truediv (1 - tokens)%Q (refill_rate self) ;
    let retry_after := int q + 1 in
    raise (RateLimitExceeded
             ("Rate limit exceeded. Try again in " ++ str_int retry_after ++ " seconds")
             retry_after)
  else
    let tokens := (tokens - 1)%Q in
    do _ <- hset now key [("tokens", Numeral tokens); ("last", Numeral now)] ;
    do _ <- expire now key 60 ;
    ret true.

Definition allow_request (self : TokenBucket) (now : Q) (ip : string) : M bool :=
  try_except
    (allow_body self now (bucket_key ip))
    (fun e =>
       match e with
       | RateLimitExceeded _ _ => raise e
       | _ => ret true   (* fail open *)
       end).

(** ** Reading aids for the statements *)

(** [d[k]] on a dictionary given as its items in insertion order. *)
Fixpoint dict_get {V} (d : list (string * V)) (k : string) : option V :=
  match d with
  | [] => None
  | (k', v) :: d' => if String.eqb k k' then Some v else dict_get d' k
  end.

(** A store in which no command fails, now or later. *)
Definition reachable (s : Redis) : Prop := forall n, faults s n = None.

(** A store in which every command fails with [e]. *)
Definition unreachable (e : redis_error) (s : Redis) : Prop :=
  forall n, faults s n = Some e.

(** [n] calls of [allow_request] in a row, all reading the clock as [now];
    the outcomes come oldest first. *)
Fixpoint allow_many (self : TokenBucket) (now : Q) (ip : string) (n : nat)
    (s : Redis) : list (outcome bool) * Redis :=
  match n with
  | O => ([], s)
  | S n' =>
      let '(o, s1) := allow_request self now ip s in
      let '(os, s2) := allow_many self now ip n' s1 in
      (o :: os, s2)
  end.

Definition is_denied (o : outcome bool) : bool :=
  match o with
  | Raise (RateLimitExceeded _ _) => true
  | _ => false
  end.

Definition is_allowed (o : outcome bool) : bool :=
  match o with
  | Return true => true
  | _ => false
  end.

(** An empty store to which every command gets through. *)
Definition fresh_redis : Redis := MkRedis ∅ (fun _ => None) [].

(** An empty store that refuses every connection. *)
Definition dead_redis : Redis :=
  MkRedis ∅ (fun _ => Some (ConnectionError "Connection refused")) [].

(** A store holding one bucket, for [ip], with no expiry set. *)
Definition redis_with (ip : string) (tokens last : text) : Redis :=
  MkRedis {[ bucket_key ip := Entry {[ "tokens" := tokens; "last" := last ]} None ]}
          (fun _ => None) [].

(** The commands sent between state [s] and a later state [s']. *)
Definition sent (s s' : Redis) : list (command * bool) :=
  drop (length (history s)) (history s').

(** A store that lets the read and the write through and fails the third
    command. *)
Definition flaky_redis : Redis :=
  MkRedis ∅ (fun n => if Nat.eqb n 2 then Some (TimeoutError "Timeout") else None) [].

(** The refill of [allow_request] (lines 75-76) and of [get_stats]
    (lines 48-49): [min(capacity, tokens + (now - last) * refill_rate)]. *)
Definition refill (self : TokenBucket) (now tokens last : Q) : Q :=
  min_ (capacity self) (tokens + (now - last) * refill_rate self)%Q.

(** What [float(v) if v else default] evaluates to; [None] when [float]
    raises. *)
Definition float_or (v : option text) (default : Q) : option Q :=
  match v with
  | Some (Numeral q) => Some q
  | Some (Junk _) => None
  | Some Blank | None => Some default
  end.

(** The two replies of [hmget(key, "tokens", "last")] at [now]. *)
Definition stored (now : Q) (key : string) (s : Redis)
    : option text * option text :=
  match live now key (db s) with
  | Some e => (fields e !! "tokens", fields e !! "last")
  | None => (None, None)
  end.

(** The token count [allow_request] holds after its refill step, when both
    fields can be read. *)
Definition tokens_after_refill (self : TokenBucket) (now : Q) (ip : string)
    (s : Redis) : option Q :=
  let '(d0, d1) := stored now (bucket_key ip) s in
  match float_or d0 (capacity self), float_or d1 now with
  | Some tokens, Some last => Some (refill self now tokens last)
  | _, _ => None
  end.

(** The [tokens_available] entry of a [get_stats] result. *)
Definition tokens_available (o : outcome (list (string * pyval))) : option Q :=
  match o with
  | Return d =>
      match dict_get d "tokens_available" with
      | Some (PyNum q) => Some q
      | _ => None
      end
  | Raise _ => None
  end.

Definition status (o : outcome (list (string * pyval))) : option string :=
  match o with
  | Return d =>
      match dict_get d "status" with
      | Some (PyStr x) => Some x
      | _ => None
      end
  | Raise _ => None
  end.

(** A field holding a non-empty string that [float] rejects. *)
Definition unparseable (v : option text) : Prop :=
  exists j, v = Some (Junk j).


(** The state after a successful read of the bucket. *)
Definition after_read (key : string) (s : Redis) : Redis :=
  MkRedis (db s) (faults s)
          (history s ++ [(HMGET key ["tokens"; "last"], true)]).

(** The fields and the expiry of the live hash under [key], if any. *)
Definition old_fields (now : Q) (key : string) (s : Redis) : gmap string text :=
  match live now key (db s) with
  | Some e => fields e
  | None => ∅
  end.

Definition old_expiry (now : Q) (key : string) (s : Redis) : option Q :=
  match live now key (db s) with
  | Some e => expires e
  | None => None
  end.

(** The keyspace once [tokens = v] and [last = now] are written under [key],
    the key expiring at [expiry]. *)
Definition written_db (now : Q) (key : string) (v : Q) (expiry : option Q)
    (s : Redis) : gmap string entry :=
  <[key := Entry (<["last" := Numeral now]>
                    (<["tokens" := Numeral v]> (old_fields now key s)))
                 expiry]> (db s).

Definition HSET_bucket (now : Q) (key : string) (v : Q) : command :=
  HSET key [("tokens", Numeral v); ("last", Numeral now)].

(** The state after a successful read, write of [v] and expiry refresh. *)
Definition after_write (now : Q) (key : string) (v : Q) (s : Redis) : Redis :=
  MkRedis
    (written_db now key v (Some (now + inject_Z 60)%Q) s)
    (faults s)
    (history s ++ [(HMGET key ["tokens"; "last"], true);
                   (HSET_bucket now key v, true);
                   (EXPIRE key 60, true)]).

(** The state after a successful read and a failed write. *)
Definition after_failed_write (now : Q) (key : string) (v : Q) (s : Redis)
    : Redis :=
  MkRedis (db s) (faults s)
    (history s ++ [(HMGET key ["tokens"; "last"], true);
                   (HSET_bucket now key v, false)]).

(** The state after a successful read and write and a failed expiry
    refresh: the record is written and keeps the expiry it had. *)
Definition after_failed_expire (now : Q) (key : string) (v : Q) (s : Redis)
    : Redis :=
  MkRedis
    (written_db now key v (old_expiry now key s) s)
    (faults s)
    (history s ++ [(HMGET key ["tokens"; "last"], true);
                   (HSET_bucket now key v, true);
                   (EXPIRE key 60, false)]).

(** The message of a denial. *)
Definition denial (retry_after : Z) : exn :=
  RateLimitExceeded
    ("Rate limit exceeded. Try again in " ++ str_int retry_after ++ " seconds")
    retry_after.

(** The paths through [allow_request], each with its outcome and final
    state; [n] is the number of commands sent before the call. *)
Inductive allow_path (self : TokenBucket) (now : Q) (ip : string) (s : Redis)
    : outcome bool -> Redis -> Prop :=
| path_read_fails e :
    faults s (length (history s)) = Some e ->
    allow_path self now ip s (Return true)
      (MkRedis (db s) (faults s)
         (history s ++ [(HMGET (bucket_key ip) ["tokens"; "last"], false)]))
| path_unreadable :
    faults s (length (history s)) = None ->
    tokens_after_refill self now ip s = None ->
    allow_path self now ip s (Return true) (after_read (bucket_key ip) s)
| path_denied t :
    faults s (length (history s)) = None ->
    tokens_after_refill self now ip s = Some t ->
    (t < 1)%Q ->
    ~ (refill_rate self == 0)%Q ->
    allow_path self now ip s
      (Raise (denial (int ((1 - t) / refill_rate self) + 1)))
      (after_read (bucket_key ip) s)
| path_zero_rate t :
    faults s (length (history s)) = None ->
    tokens_after_refill self now ip s = Some t ->
    (t < 1)%Q ->
    (refill_rate self == 0)%Q ->
    allow_path self now ip s (Return true) (after_read (bucket_key ip) s)
| path_write_fails t e :
    faults s (length (history s)) = None ->
    tokens_after_refill self now ip s = Some t ->
    (1 <= t)%Q ->
    faults s (S (length (history s))) = Some e ->
    allow_path self now ip s (Return true)
      (after_failed_write now (bucket_key ip) (t - 1) s)
| path_expire_fails t e :
    faults s (length (history s)) = None ->
    tokens_after_refill self now ip s = Some t ->
    (1 <= t)%Q ->
    faults s (S (length (history s))) = None ->
    faults s (S (S (length (history s)))) = Some e ->
    allow_path self now ip s (Return true)
      (after_failed_expire now (bucket_key ip) (t - 1) s)
| path_allowed t :
    faults s (length (history s)) = None ->
    tokens_after_refill self now ip s = Some t ->
    (1 <= t)%Q ->
    faults s (S (length (history s))) = None ->
    faults s (S (S (length (history s)))) = None ->
    allow_path self now ip s (Return true)
      (after_write now (bucket_key ip) (t - 1) s).

(** ** The HTTP layer of [main.py] *)

(** What a path operation hands back to the framework: the value it
    returned, an [HTTPException] it raised (with its [status_code], [detail]
    and [headers]), or any other exception that left it. *)
Inductive endpoint_result (A : Type) :=
| Content (a : A)
| HTTPException (status : Z) (detail : string)
                (hdrs : option (list (string * string)))
| Uncaught (e : exn).
Arguments Content {A} a.
Arguments HTTPException {A} status detail hdrs.
Arguments Uncaught {A} e.

(** An exception of the engine leaving a path operation:
    [RateLimitExceeded] is an [HTTPException] with the attributes set by its
    [__init__]; the others are not. *)
Definition leave {A} (e : exn) : endpoint_result A :=
  match e with
  | RateLimitExceeded detail _ => HTTPException 429 detail (headers e)
  | _ => Uncaught e
  end.

(** [str(e)]. [ZeroDivisionError] and [RateLimitExceeded] reach no [str]
    in this program. *)
Definition str_exn (e : exn) : string :=
  match e with
  | RedisError (ConnectionError m) => m
  | RedisError (TimeoutError m) => m
  | RedisError (ResponseError m) => m
  | RedisError (OtherError _ m) => m
  | ValueError m => m
  | TypeError m => m
  | IndexError => "list index out of range"
  | ZeroDivisionError => "float division by zero"
  | Exception_ m => m
  | RateLimitExceeded detail _ => "429: " ++ detail
  end.

Record JSONResponse := MkJSONResponse {
  response_status : Z;
  content : list (string * pyval)
}.

(** A value of the dictionary returned by the statistics route. *)
Inductive jval :=
| JStr (x : string)
| JDict (d : list (string * pyval)).

Module Main.

Abbreviation TokenBucket_get_stats := get_stats (only parsing).

(** [bucket = TokenBucket()] *)
Definition bucket : TokenBucket := MkTokenBucket 10 1.

(** [GET /health]; [now] is the reading of [time.time()]. *)
Definition health_check (now : Q) (s : Redis)
    : endpoint_result JSONResponse * Redis :=
  match check_redis_connection bucket s with
  | (Return _, s') =>
      (Content (MkJSONResponse 200
                  [("status", PyStr "healthy");
                   ("redis", PyStr "connected");
                   ("timestamp", PyNum now)]),
       s')
  | (Raise e, s') =>
      (Content (MkJSONResponse 503
                  [("status", PyStr "unhealthy");
                   ("redis", PyStr "disconnected");
                   ("error", PyStr (str_exn e));
                   ("timestamp", PyNum now)]),
       s')
  end.

(** [GET /limited]; [host] is [request.client.host]. *)
Definition limited (now : Q) (host : string) (s : Redis)
    : endpoint_result (list (string * pyval)) * Redis :=
  match allow_request bucket now host s with
  | (Return _, s') =>
      (Content [("message", PyStr "This is a limited use API");
                ("ip", PyStr host);
                ("status", PyStr "success")],
       s')
  | (Raise e, s') => (leave e, s')
  end.

(** [GET /unlimited] *)
Definition unlimited (host : string) (s : Redis)
    : endpoint_result (list (string * pyval)) * Redis :=
  (Content [("message", PyStr "Free to use API limitless");
            ("ip", PyStr host);
            ("status", PyStr "success")],
   s).

(** [GET /stats/{ip}] *)
Definition get_stats (now : Q) (ip : string) (s : Redis)
    : endpoint_result (list (string * jval)) * Redis :=
  match TokenBucket_get_stats bucket now ip s with
  | (Return stats, s') =>
      (Content [("ip", JStr ip); ("stats", JDict stats)], s')
  | (Raise e, s') => (HTTPException 500 (str_exn e) None, s')
  end.

End Main.

(** [n] requests to [/limited] in a row from [host], all at [now]. *)
Fixpoint limited_many (now : Q) (host : string) (n : nat) (s : Redis)
    : list (endpoint_result (list (string * pyval))) * Redis :=
  match n with
  | O => ([], s)
  | S n' =>
      let '(o, s1) := Main.limited now host s in
      let '(os, s2) := limited_many now host n' s1 in
      (o :: os, s2)
  end.

(** The outcome of the engine as the route hands it on. *)
Definition route_outcome (host : string) (o : outcome bool)
    : endpoint_result (list (string * pyval)) :=
  match o with
  | Return _ => Content [("message", PyStr "This is a limited use API");
                         ("ip", PyStr host);
                         ("status", PyStr "success")]
  | Raise e => leave e
  end.

Definition is_success {A} (o : endpoint_result A) : bool :=
  match o with
  | Content _ => true
  | _ => false
  end.


(** * Properties *)

(** The scenario of ten rapid calls followed by an eleventh. *)
Example scenario_eleven :
  let b := MkTokenBucket 10 1 in
  map is_allowed (allow_many b 0 "1.2.3.4" 11 fresh_redis).1
  = [true; true; true; true; true; true; true; true; true; true; false].
Proof. vm_compute. reflexivity. Qed.

(** ** Arithmetic of the built-ins *)

Lemma Qltb_lt (x y : Q) : Qltb x y = true <-> (x < y)%Q.
Proof.
  unfold Qltb. rewrite negb_true_iff, <- not_true_iff_false, Qle_bool_iff.
  split; [apply Qnot_le_lt | apply Qlt_not_le].
Qed.

Lemma Qltb_ge (x y : Q) : Qltb x y = false <-> (y <= x)%Q.
Proof.
  unfold Qltb. rewrite negb_false_iff. apply Qle_bool_iff.
Qed.

Lemma min_cases (a b : Q) :
  ((b < a)%Q /\ min_ a b = b) \/ ((a <= b)%Q /\ min_ a b = a).
Proof.
  unfold min_. destruct (Qltb b a) eqn:E.
  - left. split; [now apply Qltb_lt | reflexivity].
  - right. split; [now apply Qltb_ge | reflexivity].
Qed.

Lemma min_le_l (a b : Q) : (min_ a b <= a)%Q.
Proof. destruct (min_cases a b) as [[H ->] | [H ->]]; lra. Qed.

Lemma min_le_r (a b : Q) : (min_ a b <= b)%Q.
Proof. destruct (min_cases a b) as [[H ->] | [H ->]]; lra. Qed.

Lemma min_glb (a b c : Q) : (c <= a)%Q -> (c <= b)%Q -> (c <= min_ a b)%Q.
Proof. intros. destruct (min_cases a b) as [[H' ->] | [H' ->]]; lra. Qed.

Lemma refill_le_capacity self now tokens last :
  (refill self now tokens last <= capacity self)%Q.
Proof. apply min_le_l. Qed.

Lemma refill_same_instant self now tokens :
  (tokens <= capacity self)%Q -> (refill self now tokens now == tokens)%Q.
Proof.
  intros H. unfold refill.
  destruct (min_cases (capacity self) (tokens + (now - now) * refill_rate self))
    as [[H' ->] | [H' ->]]; [ring | ].
  assert ((now - now) * refill_rate self == 0)%Q by ring. lra.
Qed.

Lemma int_floor (x : Q) : (0 <= x)%Q -> int x = Qfloor x.
Proof.
  destruct x as [n d]. unfold Qle, int, Qfloor. simpl. intros H.
  apply Z.quot_div_nonneg; lia.
Qed.

(** ** One call, step by step *)

Lemma hmget_ok now key s :
  faults s (length (history s)) = None ->
  hmget now key ["tokens"; "last"] s
  = (Return [(stored now key s).1; (stored now key s).2], after_read key s).
Proof.
  intros H. unfold hmget, send, stored, after_read. rewrite H. simpl.
  destruct (live now key (db s)); reflexivity.
Qed.

Lemma hmget_fails now key names s e :
  faults s (length (history s)) = Some e ->
  hmget now key names s
  = (Raise (RedisError e),
     MkRedis (db s) (faults s) (history s ++ [(HMGET key names, false)])).
Proof. intros H. unfold hmget, send. now rewrite H. Qed.

Lemma float_or_some v d q s :
  float_or v d = Some q ->
  (if truthy v then float v else ret d) s = (Return q, s).
Proof.
  destruct v as [[ | | ] | ]; simpl; intros [= <-]; reflexivity.
Qed.

Lemma float_or_none v d s :
  float_or v d = None ->
  exists msg, (if truthy v then float v else ret d) s = (Raise (ValueError msg), s).
Proof.
  destruct v as [[ | | ] | ]; simpl; intros [=]. eauto.
Qed.

Lemma tokens_after_refill_some self now ip s t :
  tokens_after_refill self now ip s = Some t ->
  exists tokens last,
    float_or (stored now (bucket_key ip) s).1 (capacity self) = Some tokens /\
    float_or (stored now (bucket_key ip) s).2 now = Some last /\
    t = refill self now tokens last.
Proof.
  unfold tokens_after_refill. destruct (stored _ _ _) as [d0 d1]. simpl.
  destruct (float_or d0 _) as [tokens | ]; [ | discriminate].
  destruct (float_or d1 _) as [last | ]; [ | discriminate].
  intros [= <-]. eauto.
Qed.

Lemma allow_request_denied self now ip s t :
  faults s (length (history s)) = None ->
  tokens_after_refill self now ip s = Some t ->
  (t < 1)%Q ->
  ~ (refill_rate self == 0)%Q ->
  allow_request self now ip s
  = (Raise (denial (int ((1 - t) / refill_rate self) + 1)),
     after_read (bucket_key ip) s).
Proof.
  intros Hf Ht Hlt Hr.
  destruct (tokens_after_refill_some _ _ _ _ _ Ht) as (tokens & last & H0 & H1 & ->).
  unfold allow_request, try_except, allow_body, bind.
  rewrite (hmget_ok _ _ _ Hf). simpl.
  rewrite (float_or_some _ _ _ _ H0). simpl.
  rewrite (float_or_some _ _ _ _ H1).
  fold (refill self now tokens last).
  apply Qltb_lt in Hlt. rewrite Hlt.
  unfold truediv.
  destruct (Qeq_bool (refill_rate self) 0) eqn:E.
  - apply Qeq_bool_iff in E. contradiction.
  - reflexivity.
Qed.

Lemma allow_request_zero_rate self now ip s t :
  faults s (length (history s)) = None ->
  tokens_after_refill self now ip s = Some t ->
  (t < 1)%Q ->
  (refill_rate self == 0)%Q ->
  allow_request self now ip s = (Return true, after_read (bucket_key ip) s).
Proof.
  intros Hf Ht Hlt Hr.
  destruct (tokens_after_refill_some _ _ _ _ _ Ht) as (tokens & last & H0 & H1 & ->).
  unfold allow_request, try_except, allow_body, bind.
  rewrite (hmget_ok _ _ _ Hf). simpl.
  rewrite (float_or_some _ _ _ _ H0). simpl.
  rewrite (float_or_some _ _ _ _ H1).
  fold (refill self now tokens last).
  apply Qltb_lt in Hlt. rewrite Hlt.
  unfold truediv. apply Qeq_bool_iff in Hr. rewrite Hr. reflexivity.
Qed.

Lemma allow_request_unreadable self now ip s :
  faults s (length (history s)) = None ->
  tokens_after_refill self now ip s = None ->
  allow_request self now ip s = (Return true, after_read (bucket_key ip) s).
Proof.
  intros Hf Ht.
  unfold allow_request, try_except, allow_body, bind.
  rewrite (hmget_ok _ _ _ Hf). simpl.
  unfold tokens_after_refill in Ht.
  destruct (stored now (bucket_key ip) s) as [d0 d1]. simpl.
  destruct (float_or d0 (capacity self)) as [tokens | ] eqn:H0.
  - rewrite (float_or_some _ _ _ _ H0). simpl.
    destruct (float_or d1 now) as [last | ] eqn:H1; [discriminate | ].
    destruct (float_or_none _ _ (after_read (bucket_key ip) s) H1) as [msg ->].
    reflexivity.
  - destruct (float_or_none _ _ (after_read (bucket_key ip) s) H0) as [msg ->].
    reflexivity.
Qed.

Lemma allow_request_read_fails self now ip s e :
  faults s (length (history s)) = Some e ->
  allow_request self now ip s
  = (Return true,
     MkRedis (db s) (faults s)
             (history s ++ [(HMGET (bucket_key ip) ["tokens"; "last"], false)])).
Proof.
  intros Hf. unfold allow_request, try_except, allow_body, bind.
  rewrite (hmget_fails _ _ _ _ _ Hf). reflexivity.
Qed.

Lemma alive_fresh_expiry now (h : gmap string text) :
  alive now (Entry h (Some (now + inject_Z 60)%Q)) = true.
Proof.
  unfold alive. simpl. apply Qltb_lt.
  assert (inject_Z 60 == 60)%Q by reflexivity. lra.
Qed.

Lemma live_alive now key d e : live now key d = Some e -> alive now e = true.
Proof.
  unfold live. destruct (d !! key) as [e' | ]; [ | discriminate].
  destruct (alive now e') eqn:E; [ | discriminate]. now intros [= <-].
Qed.

Lemma live_insert now key e (d : gmap string entry) :
  alive now e = true -> live now key (<[key := e]> d) = Some e.
Proof. intros H. unfold live. now rewrite lookup_insert_eq, H. Qed.

Lemma alive_written now key v s :
  alive now (Entry (<["last" := Numeral now]>
                      (<["tokens" := Numeral v]> (old_fields now key s)))
                   (old_expiry now key s)) = true.
Proof.
  unfold old_expiry. destruct (live now key (db s)) as [e | ] eqn:El.
  - apply live_alive in El. exact El.
  - reflexivity.
Qed.

(** The read, the refill and the comparison of a call that is let through,
    up to the point where the write is sent. *)
Ltac run_to_write Hf0 Ht Hge :=
  let tokens := fresh "tokens" in
  let last := fresh "last" in
  let H0 := fresh "H0" in
  let H1 := fresh "H1" in
  destruct (tokens_after_refill_some _ _ _ _ _ Ht) as (tokens & last & H0 & H1 & ->);
  unfold allow_request, try_except, allow_body, bind;
  rewrite (hmget_ok _ _ _ Hf0); simpl;
  rewrite (float_or_some _ _ _ _ H0); simpl;
  rewrite (float_or_some _ _ _ _ H1);
  unfold refill in Hge; apply Qltb_ge in Hge; rewrite Hge;
  unfold hset, expire, send, after_read; simpl;
  rewrite length_app; simpl; rewrite Nat.add_1_r.

Lemma allow_request_write_fails self now ip s t e :
  faults s (length (history s)) = None ->
  tokens_after_refill self now ip s = Some t ->
  (1 <= t)%Q ->
  faults s (S (length (history s))) = Some e ->
  allow_request self now ip s
  = (Return true, after_failed_write now (bucket_key ip) (t - 1) s).
Proof.
  intros Hf0 Ht Hge Hf1. run_to_write Hf0 Ht Hge.
  rewrite Hf1. unfold after_failed_write, HSET_bucket.
  rewrite <- !app_assoc. reflexivity.
Qed.

Lemma hset_db now key v s :
  <[key := Entry (<["last" := Numeral now]>
                    (<["tokens" := Numeral v]>
                       (fields match live now key (db s) with
                               | Some e => e
                               | None => Entry ∅ None
                               end)))
                 (expires match live now key (db s) with
                          | Some e => e
                          | None => Entry ∅ None
                          end)]> (db s)
  = written_db now key v (old_expiry now key s) s.
Proof.
  unfold written_db, old_fields, old_expiry.
  destruct (live now key (db s)); reflexivity.
Qed.

Lemma allow_request_expire_fails self now ip s t e :
  faults s (length (history s)) = None ->
  tokens_after_refill self now ip s = Some t ->
  (1 <= t)%Q ->
  faults s (S (length (history s))) = None ->
  faults s (S (S (length (history s)))) = Some e ->
  allow_request self now ip s
  = (Return true, after_failed_expire now (bucket_key ip) (t - 1) s).
Proof.
  intros Hf0 Ht Hge Hf1 Hf2. run_to_write Hf0 Ht Hge.
  rewrite Hf1. simpl. rewrite !length_app. simpl. rewrite !Nat.add_1_r, Hf2.
  simpl. rewrite hset_db. unfold after_failed_expire, HSET_bucket.
  rewrite <- !app_assoc. reflexivity.
Qed.

Lemma allow_request_allowed self now ip s t :
  faults s (length (history s)) = None ->
  tokens_after_refill self now ip s = Some t ->
  (1 <= t)%Q ->
  faults s (S (length (history s))) = None ->
  faults s (S (S (length (history s)))) = None ->
  allow_request self now ip s
  = (Return true, after_write now (bucket_key ip) (t - 1) s).
Proof.
  intros Hf0 Ht Hge Hf1 Hf2. run_to_write Hf0 Ht Hge.
  rewrite Hf1. simpl. rewrite !length_app. simpl. rewrite !Nat.add_1_r, Hf2.
  simpl. rewrite hset_db. unfold written_db at 1.
  rewrite (live_insert _ _ _ _ (alive_written _ _ _ _)). simpl.
  unfold after_write, HSET_bucket, written_db.
  rewrite insert_insert_eq, <- !app_assoc. reflexivity.
Qed.

(** Every call follows one of the paths. *)
Lemma allow_request_path self now ip s :
  allow_path self now ip s (allow_request self now ip s).1
                           (allow_request self now ip s).2.
Proof.
  destruct (faults s (length (history s))) as [e | ] eqn:Hf0.
  { rewrite (allow_request_read_fails _ _ _ _ _ Hf0). now apply path_read_fails with e. }
  destruct (tokens_after_refill self now ip s) as [t | ] eqn:Ht.
  2: { rewrite (allow_request_unreadable _ _ _ _ Hf0 Ht). now apply path_unreadable. }
  destruct (Qlt_le_dec t 1) as [Hlt | Hge].
  { destruct (Qeq_dec (refill_rate self) 0) as [Hr | Hr].
    - rewrite (allow_request_zero_rate _ _ _ _ _ Hf0 Ht Hlt Hr).
      now apply path_zero_rate with t.
    - rewrite (allow_request_denied _ _ _ _ _ Hf0 Ht Hlt Hr).
      now apply path_denied. }
  destruct (faults s (S (length (history s)))) as [e | ] eqn:Hf1.
  { rewrite (allow_request_write_fails _ _ _ _ _ _ Hf0 Ht Hge Hf1).
    now apply path_write_fails with e. }
  destruct (faults s (S (S (length (history s))))) as [e | ] eqn:Hf2.
  - rewrite (allow_request_expire_fails _ _ _ _ _ _ Hf0 Ht Hge Hf1 Hf2).
    now apply path_expire_fails with e.
  - rewrite (allow_request_allowed _ _ _ _ _ Hf0 Ht Hge Hf1 Hf2).
    now apply path_allowed.
Qed.

(** ** Outcomes and effects of one call *)

Lemma sent_app s d f l : sent s (MkRedis d f (history s ++ l)) = l.
Proof. unfold sent. simpl. apply drop_app_length. Qed.

Lemma unparseable_float_or v d : unparseable v -> float_or v d = None.
Proof. intros [j ->]. reflexivity. Qed.

Lemma unparseable_unreadable self now ip s :
  unparseable (stored now (bucket_key ip) s).1 \/
  unparseable (stored now (bucket_key ip) s).2 ->
  tokens_after_refill self now ip s = None.
Proof.
  unfold tokens_after_refill. destruct (stored _ _ _) as [d0 d1]. simpl.
  intros [H | H]; rewrite (unparseable_float_or _ _ H);
    [ | destruct (float_or d0 _)]; reflexivity.
Qed.

(** C10: whatever the store does (commands failing with any error, fields
    that do not parse), a call to [allow_request] either returns [True] or
    raises [RateLimitExceeded]; nothing else escapes. *)
Theorem allow_request_returns_or_denies self now ip s :
  (allow_request self now ip s).1 = Return true \/
  exists detail retry_after,
    (allow_request self now ip s).1 = Raise (RateLimitExceeded detail retry_after).
Proof.
  destruct (allow_request_path self now ip s); auto.
  right. unfold denial. eauto.
Qed.

(** Against C4 as worded: the empty string is a field [float] rejects, yet
    [allow_request] never hands it to [float]; a record with [tokens] 0 and
    an empty [last] is read as an empty bucket last refilled now, and the
    call is denied. *)
Lemma empty_field_is_denied :
  ~ (forall self now ip s,
       faults s (length (history s)) = None ->
       (exists msg, float (stored now (bucket_key ip) s).2 s
                    = (Raise (ValueError msg), s)) ->
       (allow_request self now ip s).1 = Return true).
Proof.
  intros H.
  specialize (H (MkTokenBucket 10 1) 0%Q "1.2.3.4"
                (redis_with "1.2.3.4" (Numeral 0) Blank) eq_refl).
  assert (Hm : exists msg,
             float (stored 0 (bucket_key "1.2.3.4")
                      (redis_with "1.2.3.4" (Numeral 0) Blank)).2
                   (redis_with "1.2.3.4" (Numeral 0) Blank)
             = (Raise (ValueError msg), redis_with "1.2.3.4" (Numeral 0) Blank)).
  { eexists. reflexivity. }
  apply H in Hm. vm_compute in Hm. discriminate.
Qed.

(** C4, amended: when the store is unreachable, when any command sent by the
    call comes back with an error, or when a stored field is a non-empty
    string that [float] rejects, [allow_request] returns [True]. *)
Theorem allow_request_fails_open self now ip s :
  (exists e, unreachable e s) \/
  (exists e, faults s (length (history s)) = Some e) \/
  (exists c, (c, false) ∈ sent s (allow_request self now ip s).2) \/
  unparseable (stored now (bucket_key ip) s).1 \/
  unparseable (stored now (bucket_key ip) s).2 ->
  (allow_request self now ip s).1 = Return true.
Proof.
  intros H.
  assert (H' : (exists e, faults s (length (history s)) = Some e) \/
               (exists c, (c, false) ∈ sent s (allow_request self now ip s).2) \/
               tokens_after_refill self now ip s = None).
  { destruct H as [[e H] | [H | [H | H]]]; eauto using unparseable_unreadable. }
  clear H. revert H'.
  destruct (allow_request_path self now ip s); auto.
  intros [[e He] | [[c Hc] | Hn]]; [congruence | | congruence].
  unfold after_read in Hc. rewrite sent_app in Hc.
  apply list_elem_of_singleton in Hc. discriminate.
Qed.

Lemma allow_request_fails_open_witness :
  (allow_request (MkTokenBucket 10 1) 0 "1.2.3.4" dead_redis).1 = Return true.
Proof.
  apply allow_request_fails_open. left.
  exists (ConnectionError "Connection refused"). intros n. reflexivity.
Defined.

Lemma written_db_lookup now key v x s :
  written_db now key v x s !! key
  = Some (Entry (<["last" := Numeral now]>
                   (<["tokens" := Numeral v]> (old_fields now key s))) x).
Proof. unfold written_db. apply lookup_insert_eq. Qed.

(** Membership in an explicit list of commands that holds for none of them. *)
Ltac no_member H :=
  apply list_elem_of_In in H; simpl in H; unfold HSET_bucket in H;
  repeat (destruct H as [H | H]; [try (inversion H; subst; done) | ]);
  try done.

(** Against C5 as worded: with a store that accepts the read and the write
    and then fails the expiry refresh, the call ends on a store-failure path
    and the record has been written. *)
Lemma allow_request_failure_path_writes :
  ~ (forall self now ip s,
       (exists c, (c, false) ∈ sent s (allow_request self now ip s).2) ->
       db (allow_request self now ip s).2 = db s).
Proof.
  intros H.
  specialize (H (MkTokenBucket 10 1) 0%Q "1.2.3.4" flaky_redis).
  assert (Hs : exists c, (c, false)
             ∈ sent flaky_redis
                 (allow_request (MkTokenBucket 10 1) 0 "1.2.3.4" flaky_redis).2).
  { exists (EXPIRE "bucket:1.2.3.4" 60). vm_compute.
    apply list_elem_of_In. simpl. auto. }
  apply H in Hs.
  apply (f_equal (fun d => d !! "bucket:1.2.3.4")) in Hs.
  vm_compute in Hs. discriminate.
Qed.

(** C5, amended: a denied call sends the read and nothing else and leaves
    the keyspace as it was; so does a call in which the read or the write
    fails, or in which a field does not parse. The keyspace changes only in
    a call that returns [True] and whose write went through; when it is the
    expiry refresh that fails, the written record stays. *)
Theorem allow_request_frame self now ip s :
  let r := allow_request self now ip s in
  let key := bucket_key ip in
  (is_denied r.1 = true ->
     db r.2 = db s /\ sent s r.2 = [(HMGET key ["tokens"; "last"], true)])
  /\ ((exists c, (c, false) ∈ sent s r.2 /\ c <> EXPIRE key 60) -> db r.2 = db s)
  /\ (unparseable (stored now key s).1 \/ unparseable (stored now key s).2 ->
        db r.2 = db s)
  /\ (db r.2 <> db s ->
        r.1 = Return true /\
        exists v, (HSET_bucket now key v, true) ∈ sent s r.2 /\
                  exists x, db r.2 !! key
                            = Some (Entry (<["last" := Numeral now]>
                                             (<["tokens" := Numeral v]>
                                                (old_fields now key s))) x))
  /\ ((EXPIRE key 60, false) ∈ sent s r.2 ->
        r.1 = Return true /\
        exists v, db r.2 = written_db now key v (old_expiry now key s) s).
Proof.
  intros r key. subst r key.
  pose proof (unparseable_unreadable self now ip s) as Hu.
  destruct (allow_request_path self now ip s) as
    [e Hf0 | Hf0 Ht | t Hf0 Ht Hlt Hr | t Hf0 Ht Hlt Hr | t e Hf0 Ht Hge Hf1
     | t e Hf0 Ht Hge Hf1 Hf2 | t Hf0 Ht Hge Hf1 Hf2];
    unfold after_read, after_failed_write, after_failed_expire, after_write;
    rewrite ?sent_app; simpl;
    (split; [ | split; [ | split; [ | split]]]);
    try done; try (intros Hc; no_member Hc).
  - intros (c & Hc & Hne). no_member Hc.
  - intros H. apply Hu in H. congruence.
  - intros _. split; [done | ]. exists (t - 1)%Q. split.
    + apply list_elem_of_In. simpl. auto.
    + eexists. apply written_db_lookup.
  - split; [done | ]. now exists (t - 1)%Q.
  - intros (c & Hc & Hne). no_member Hc.
  - intros H. apply Hu in H. congruence.
  - intros _. split; [done | ]. exists (t - 1)%Q. split.
    + apply list_elem_of_In. simpl. auto.
    + eexists. apply written_db_lookup.
Qed.

(** ** Statistics and the connectivity check *)

Lemma get_stats_read_fails self now ip s e :
  faults s (length (history s)) = Some e ->
  get_stats self now ip s
  = (Raise (RedisError e),
     MkRedis (db s) (faults s)
             (history s ++ [(HMGET (bucket_key ip) ["tokens"; "last"], false)])).
Proof.
  intros Hf. unfold get_stats, try_except, bind.
  rewrite (hmget_fails _ _ _ _ _ Hf). reflexivity.
Qed.

Lemma get_stats_new self now ip s :
  faults s (length (history s)) = None ->
  (stored now (bucket_key ip) s).1 = None ->
  get_stats self now ip s
  = (Return [("tokens_available", PyNum (capacity self));
             ("capacity", PyNum (capacity self));
             ("refill_rate", PyNum (refill_rate self));
             ("status", PyStr "new")],
     after_read (bucket_key ip) s).
Proof.
  intros Hf H0. unfold get_stats, try_except, bind.
  rewrite (hmget_ok _ _ _ Hf). simpl. rewrite H0. reflexivity.
Qed.

Lemma get_stats_active self now ip s tokens last :
  faults s (length (history s)) = None ->
  (stored now (bucket_key ip) s).1 = Some (Numeral tokens) ->
  float_or (stored now (bucket_key ip) s).2 now = Some last ->
  get_stats self now ip s
  = (Return [("tokens_available", PyNum (round2 (refill self now tokens last)));
             ("capacity", PyNum (capacity self));
             ("refill_rate", PyNum (refill_rate self));
             ("last_request", PyNum last);
             ("time_since_last", PyNum (round2 (now - last)));
             ("status", PyStr "active")],
     after_read (bucket_key ip) s).
Proof.
  intros Hf H0 H1. unfold get_stats, try_except, bind.
  rewrite (hmget_ok _ _ _ Hf). simpl. rewrite H0. simpl.
  rewrite (float_or_some _ _ _ _ H1). reflexivity.
Qed.

(** [get_stats] sends one read and never changes the keyspace. *)
Lemma get_stats_read_only self now ip s :
  db (get_stats self now ip s).2 = db s /\
  exists ok, sent s (get_stats self now ip s).2
             = [(HMGET (bucket_key ip) ["tokens"; "last"], ok)].
Proof.
  destruct (faults s (length (history s))) as [e | ] eqn:Hf.
  { rewrite (get_stats_read_fails _ _ _ _ _ Hf). simpl.
    rewrite sent_app. eauto. }
  unfold get_stats, try_except, bind. rewrite (hmget_ok _ _ _ Hf). simpl.
  destruct (stored now (bucket_key ip) s) as [[[q | | j] | ] d1]; simpl;
    try (unfold after_read; rewrite sent_app; eauto).
  destruct d1 as [[l | | j] | ]; simpl;
    unfold after_read; rewrite sent_app; eauto.
Qed.

Lemma check_redis_connection_fails self s e :
  faults s (length (history s)) = Some e ->
  (check_redis_connection self s).1
  = Raise match e with
          | ConnectionError _ => Exception_ "Redis connection failed"
          | _ => RedisError e
          end.
Proof.
  intros Hf. unfold check_redis_connection, try_except, bind, ping, send.
  rewrite Hf. destruct e; reflexivity.
Qed.

(** Against C7 as worded: a refused connection reaches the caller of
    [check_redis_connection] as a different exception. *)
Lemma check_redis_connection_replaces_error :
  ~ (forall self e s,
       unreachable e s ->
       (check_redis_connection self s).1 = Raise (RedisError e)).
Proof.
  intros H.
  specialize (H (MkTokenBucket 10 1) (ConnectionError "Connection refused")
                dead_redis (fun _ => eq_refl)).
  vm_compute in H. discriminate.
Qed.

(** C7, amended: with the store unreachable, [get_stats] re-raises the
    store's error as it is; [check_redis_connection] raises too, a plain
    [Exception("Redis connection failed")] in place of a [ConnectionError]
    and any other error as it is; neither returns a value, while
    [allow_request] returns [True]. *)
Theorem unreachable_store_errors self now ip e s :
  unreachable e s ->
  (get_stats self now ip s).1 = Raise (RedisError e)
  /\ (check_redis_connection self s).1
     = Raise match e with
             | ConnectionError _ => Exception_ "Redis connection failed"
             | _ => RedisError e
             end
  /\ (allow_request self now ip s).1 = Return true.
Proof.
  intros H. pose proof (H (length (history s))) as Hf.
  rewrite (get_stats_read_fails _ _ _ _ _ Hf).
  rewrite (check_redis_connection_fails _ _ _ Hf).
  rewrite (allow_request_read_fails _ _ _ _ _ Hf). auto.
Qed.

Lemma unreachable_store_errors_witness :
  (get_stats (MkTokenBucket 10 1) 0 "1.2.3.4" dead_redis).1
  = Raise (RedisError (ConnectionError "Connection refused"))
  /\ (check_redis_connection (MkTokenBucket 10 1) dead_redis).1
     = Raise (Exception_ "Redis connection failed")
  /\ (allow_request (MkTokenBucket 10 1) 0 "1.2.3.4" dead_redis).1 = Return true.
Proof.
  apply (unreachable_store_errors (MkTokenBucket 10 1) 0 "1.2.3.4"
           (ConnectionError "Connection refused") dead_redis).
  intros n. reflexivity.
Defined.

(** C9: for an identity with no live record, [get_stats] returns status
    ["new"] and [tokens_available] equal to the capacity, sends the read and
    nothing else, and leaves the keyspace as it was. *)
Theorem get_stats_new_identity self now ip s :
  faults s (length (history s)) = None ->
  live now (bucket_key ip) (db s) = None ->
  status (get_stats self now ip s).1 = Some "new"
  /\ tokens_available (get_stats self now ip s).1 = Some (capacity self)
  /\ db (get_stats self now ip s).2 = db s
  /\ sent s (get_stats self now ip s).2
     = [(HMGET (bucket_key ip) ["tokens"; "last"], true)]
  /\ live now (bucket_key ip) (db (get_stats self now ip s).2) = None.
Proof.
  intros Hf Hl.
  assert (H0 : (stored now (bucket_key ip) s).1 = None).
  { unfold stored. now rewrite Hl. }
  rewrite (get_stats_new _ _ _ _ Hf H0). unfold after_read. cbn [fst snd].
  rewrite sent_app. simpl. auto.
Qed.

Lemma get_stats_new_identity_witness :
  let r := get_stats (MkTokenBucket 10 1) 0 "1.2.3.4" fresh_redis in
  status r.1 = Some "new"
  /\ tokens_available r.1 = Some 10%Q
  /\ db r.2 = db fresh_redis
  /\ sent fresh_redis r.2 = [(HMGET "bucket:1.2.3.4" ["tokens"; "last"], true)]
  /\ live 0 "bucket:1.2.3.4" (db r.2) = None.
Proof.
  apply (get_stats_new_identity (MkTokenBucket 10 1) 0 "1.2.3.4" fresh_redis);
    reflexivity.
Defined.

(** ** The retry delay of a denial *)

Lemma quotient_pos (t r : Q) : (t < 1)%Q -> (0 < r)%Q -> (0 < (1 - t) / r)%Q.
Proof.
  intros Ht Hr. unfold Qdiv. apply Qmult_lt_0_compat.
  - lra.
  - now apply Qinv_lt_0_compat.
Qed.




(** ** The refill and its bounds *)

Lemma tokens_after_refill_numerals self now ip s tokens last :
  stored now (bucket_key ip) s = (Some (Numeral tokens), Some (Numeral last)) ->
  tokens_after_refill self now ip s = Some (refill self now tokens last).
Proof. intros H. unfold tokens_after_refill. now rewrite H. Qed.

Lemma refill_grows self now tokens last :
  (last <= now)%Q -> (0 <= refill_rate self)%Q -> (tokens <= capacity self)%Q ->
  (tokens <= refill self now tokens last)%Q.
Proof.
  intros Hl Hr Hc. unfold refill. apply min_glb; [exact Hc | ].
  assert (0 <= (now - last) * refill_rate self)%Q.
  { apply Qmult_le_0_compat; lra. }
  lra.
Qed.

Lemma refill_nonneg self now tokens last :
  (0 <= tokens)%Q -> (last <= now)%Q -> (0 <= refill_rate self)%Q ->
  (0 <= capacity self)%Q ->
  (0 <= refill self now tokens last)%Q.
Proof.
  intros Ht Hl Hr Hc. unfold refill. apply min_glb; [exact Hc | ].
  assert (0 <= (now - last) * refill_rate self)%Q.
  { apply Qmult_le_0_compat; lra. }
  lra.
Qed.

(** Against C3 as worded: with the stored [last] ahead of the clock, the
    count reported by [get_stats] falls below the stored 5, and a bucket
    holding one token denies. *)
Lemma skew_reduces_tokens :
  (exists q,
     tokens_available
       (get_stats (MkTokenBucket 10 1) 8 "1.2.3.4"
          (redis_with "1.2.3.4" (Numeral 5) (Numeral 10))).1 = Some q
     /\ (q < 5)%Q)
  /\ is_denied
       (allow_request (MkTokenBucket 10 1) 9 "1.2.3.4"
          (redis_with "1.2.3.4" (Numeral 1) (Numeral 10))).1 = true.
Proof.
  split; [ | vm_compute; reflexivity].
  eexists. split; [vm_compute; reflexivity | ]. reflexivity.
Qed.

(** Rounding to hundredths keeps the order. *)
Lemma round2_mono (x y : Q) : (x <= y)%Q -> (round2 x <= round2 y)%Q.
Proof.
  intros H. unfold round2.
  set (fx := Qfloor (x * 100)). set (fy := Qfloor (y * 100)).
  set (ux := if Qltb (x * 100 - inject_Z fx) (1 # 2) then false
             else if Qltb (1 # 2) (x * 100 - inject_Z fx) then true
                  else Z.odd fx).
  set (uy := if Qltb (y * 100 - inject_Z fy) (1 # 2) then false
             else if Qltb (1 # 2) (y * 100 - inject_Z fy) then true
                  else Z.odd fy).
  assert (Hf : fx <= fy).
  { subst fx fy. apply Qfloor_resp_le. lra. }
  assert (Hz : (if ux then fx + 1 else fx) <= (if uy then fy + 1 else fy)).
  { destruct (Z.eq_dec fx fy) as [E | N]; [ | destruct ux, uy; lia].
    destruct ux eqn:Ux; [ | destruct uy; lia].
    assert (Uy : uy = true); [ | rewrite Uy; lia].
    subst ux uy. rewrite <- E.
    destruct (Qltb (x * 100 - inject_Z fx) (1 # 2)) eqn:A; [discriminate | ].
    apply Qltb_ge in A.
    destruct (Qltb (y * 100 - inject_Z fx) (1 # 2)) eqn:B.
    { apply Qltb_lt in B. lra. }
    destruct (Qltb (1 # 2) (y * 100 - inject_Z fx)) eqn:D; [reflexivity | ].
    apply Qltb_ge in D.
    destruct (Qltb (1 # 2) (x * 100 - inject_Z fx)) eqn:F; [ | exact Ux].
    apply Qltb_lt in F. lra. }
  rewrite Zle_Qle in Hz. unfold Qdiv.
  apply Qmult_le_compat_r; [exact Hz | discriminate].
Qed.

(** C3, amended: the elapsed time is [now - last], not clamped. With a
    non-negative refill rate, the refilled count, in [allow_request] and in
    [get_stats] alike, is no less than the stored count when [last <= now]
    and the stored count is within the capacity, and a bucket that holds a
    token is then not denied; when [last > now] the refilled count is no more
    than the stored count (and can be less, as the lemma above shows). *)
Theorem refill_unclamped self now ip s tokens last :
  faults s (length (history s)) = None ->
  stored now (bucket_key ip) s = (Some (Numeral tokens), Some (Numeral last)) ->
  (0 <= refill_rate self)%Q ->
  exists t q,
    tokens_after_refill self now ip s = Some t
    /\ tokens_available (get_stats self now ip s).1 = Some q
    /\ ((last <= now)%Q -> (tokens <= capacity self)%Q ->
          (tokens <= t)%Q
          /\ (round2 tokens <= q)%Q
          /\ ((1 <= tokens)%Q ->
                is_denied (allow_request self now ip s).1 = false))
    /\ ((now < last)%Q -> (t <= tokens)%Q /\ (q <= round2 tokens)%Q).
Proof.
  intros Hf Hs Hr.
  pose proof (tokens_after_refill_numerals self _ _ _ _ _ Hs) as Ht.
  exists (refill self now tokens last), (round2 (refill self now tokens last)).
  split; [exact Ht | ]. split.
  { rewrite (get_stats_active self now ip s tokens last Hf);
      rewrite ?Hs; reflexivity. }
  split.
  - intros Hl Hc.
    pose proof (refill_grows self now tokens last Hl Hr Hc) as Hg.
    split; [exact Hg | ]. split; [now apply round2_mono | ].
    intros H1.
    destruct (allow_request_path self now ip s) as
      [ | | t' _ Ht' Hlt _ | | | | ]; try reflexivity.
    rewrite Ht in Ht'. injection Ht' as <-. lra.
  - intros Hl.
    assert (Hle : (refill self now tokens last <= tokens)%Q).
    { unfold refill.
      apply Qle_trans with (tokens + (now - last) * refill_rate self)%Q;
        [apply min_le_r | ].
      assert (0 <= (last - now) * refill_rate self)%Q.
      { apply Qmult_le_0_compat; lra. }
      assert ((now - last) * refill_rate self
              == - ((last - now) * refill_rate self))%Q by ring.
      lra. }
    split; [exact Hle | now apply round2_mono].
Qed.

Lemma refill_unclamped_witness :
  exists t q,
    tokens_after_refill (MkTokenBucket 10 1) 8 "1.2.3.4"
      (redis_with "1.2.3.4" (Numeral 5) (Numeral 10)) = Some t
    /\ tokens_available
         (get_stats (MkTokenBucket 10 1) 8 "1.2.3.4"
            (redis_with "1.2.3.4" (Numeral 5) (Numeral 10))).1 = Some q
    /\ ((10 <= 8)%Q -> (5 <= 10)%Q ->
          (5 <= t)%Q
          /\ (round2 5 <= q)%Q
          /\ ((1 <= 5)%Q ->
                is_denied
                  (allow_request (MkTokenBucket 10 1) 8 "1.2.3.4"
                     (redis_with "1.2.3.4" (Numeral 5) (Numeral 10))).1
                = false))
    /\ ((8 < 10)%Q -> (t <= 5)%Q /\ (q <= round2 5)%Q).
Proof.
  apply (refill_unclamped (MkTokenBucket 10 1) 8 "1.2.3.4"
           (redis_with "1.2.3.4" (Numeral 5) (Numeral 10)) 5 10).
  - reflexivity.
  - reflexivity.
  - discriminate.
Defined.

(** Division by the constant 100 put in the form the linear solver reads. *)
Ltac hundredths :=
  unfold Qdiv in *;
  change (/ 100)%Q with (1 # 100)%Q in *;
  change (inject_Z 0) with 0%Q in *.

Lemma round2_nonneg (x : Q) : (0 <= x)%Q -> (0 <= round2 x)%Q.
Proof.
  intros Hx. unfold round2.
  set (f := Qfloor (x * 100)).
  assert (Hf : (0 <= f)%Z).
  { subst f. rewrite <- (Qfloor_Z 0). apply Qfloor_resp_le. hundredths. lra. }
  set (up := if Qltb _ _ then false else _).
  assert (Hz : (0 <= if up then f + 1 else f)%Z) by (destruct up; lia).
  rewrite Zle_Qle in Hz. hundredths. lra.
Qed.

Lemma round2_le_hundredths (x : Q) (k : Z) :
  (x <= inject_Z k / 100)%Q -> (round2 x <= inject_Z k / 100)%Q.
Proof.
  intros Hx. unfold round2.
  set (f := Qfloor (x * 100)).
  assert (Hy : (x * 100 <= inject_Z k)%Q) by (hundredths; lra).
  assert (Hf : (f <= k)%Z).
  { subst f. rewrite <- (Qfloor_Z k). now apply Qfloor_resp_le. }
  set (up := if Qltb _ _ then false else _).
  assert (Hz : (if up then f + 1 else f) <= k).
  { destruct (Z.eq_dec f k) as [E | N].
    - assert (Hup : up = false).
      { subst up. replace (Qltb (x * 100 - inject_Z f) (1 # 2)) with true;
          [reflexivity | ].
        symmetry. apply Qltb_lt. rewrite E. lra. }
      rewrite Hup. lia.
    - destruct up; lia. }
  rewrite Zle_Qle in Hz. hundredths. lra.
Qed.

(** Against C6 as worded: with the stored [last] ahead of the clock,
    [get_stats] reports a negative count. *)
Lemma skew_negative_tokens :
  exists q,
    tokens_available
      (get_stats (MkTokenBucket 10 1) 90 "1.2.3.4"
         (redis_with "1.2.3.4" (Numeral 0) (Numeral 100))).1 = Some q
    /\ (q < 0)%Q.
Proof. eexists. split; [vm_compute; reflexivity | ]. reflexivity. Qed.

(** C6, amended: the refilled count never exceeds the capacity, whatever
    the elapsed time; every value [allow_request] sends to the store is
    non-negative and within the capacity; the count [get_stats] reports is
    the capacity for a new identity and otherwise stays within a capacity
    given in hundredths, and is non-negative when the stored count, the rate
    and the capacity are and [last <= now] (the elapsed time is not
    clamped). *)
Theorem token_bounds self now ip s :
  (forall t, tokens_after_refill self now ip s = Some t ->
             (t <= capacity self)%Q)
  /\ (forall v ok,
        (HSET_bucket now (bucket_key ip) v, ok)
          ∈ sent s (allow_request self now ip s).2 ->
        (0 <= v)%Q /\ (v <= capacity self)%Q)
  /\ (forall q,
        tokens_available (get_stats self now ip s).1 = Some q ->
        ((stored now (bucket_key ip) s).1 = None /\ q = capacity self)
        \/ exists tokens last,
             (stored now (bucket_key ip) s).1 = Some (Numeral tokens)
             /\ float_or (stored now (bucket_key ip) s).2 now = Some last
             /\ (forall k, (capacity self == inject_Z k / 100)%Q ->
                           (q <= capacity self)%Q)
             /\ ((0 <= tokens)%Q -> (last <= now)%Q ->
                 (0 <= refill_rate self)%Q -> (0 <= capacity self)%Q ->
                 (0 <= q)%Q)).
Proof.
  assert (Hcap : forall t, tokens_after_refill self now ip s = Some t ->
                           (t <= capacity self)%Q).
  { intros t Ht.
    destruct (tokens_after_refill_some _ _ _ _ _ Ht) as (tk & l & _ & _ & ->).
    apply refill_le_capacity. }
  split; [exact Hcap | ]. split.
  - intros v ok.
    destruct (allow_request_path self now ip s) as
      [e Hf0 | Hf0 Ht | t Hf0 Ht Hlt Hr | t Hf0 Ht Hlt Hr | t e Hf0 Ht Hge Hf1
       | t e Hf0 Ht Hge Hf1 Hf2 | t Hf0 Ht Hge Hf1 Hf2];
      unfold after_read, after_failed_write, after_failed_expire, after_write;
      rewrite sent_app; intros Hv;
      apply list_elem_of_In in Hv; simpl in Hv; unfold HSET_bucket in Hv;
      repeat (destruct Hv as [Hv | Hv]; [try discriminate | ]);
      try contradiction;
      injection Hv as <- _; apply Hcap in Ht; lra.
  - intros q.
    destruct (faults s (length (history s))) as [e | ] eqn:Hf.
    { rewrite (get_stats_read_fails _ _ _ _ _ Hf). discriminate. }
    destruct (stored now (bucket_key ip) s) as [d0 d1] eqn:Hs.
    destruct d0 as [[tokens | | j] | ].
    + destruct (float_or d1 now) as [last | ] eqn:H1.
      * rewrite (get_stats_active self now ip s tokens last Hf);
          rewrite ?Hs; auto.
        intros [= <-]. right. exists tokens, last.
        pose proof (refill_le_capacity self now tokens last) as Hle.
        repeat split; auto.
        -- intros k Hk. rewrite Hk. apply round2_le_hundredths.
           rewrite <- Hk. exact Hle.
        -- intros. apply round2_nonneg. now apply refill_nonneg.
      * unfold get_stats, try_except, bind.
        rewrite (hmget_ok _ _ _ Hf), Hs. simpl.
        destruct (float_or_none d1 now (after_read (bucket_key ip) s) H1)
          as [msg ->].
        discriminate.
    + unfold get_stats, try_except, bind.
      rewrite (hmget_ok _ _ _ Hf), Hs. discriminate.
    + unfold get_stats, try_except, bind.
      rewrite (hmget_ok _ _ _ Hf), Hs. discriminate.
    + rewrite (get_stats_new self now ip s Hf); rewrite ?Hs; auto.
      intros [= <-]. now left.
Qed.

(** ** Successive calls *)

Lemma Qltb_comp (x x' y y' : Q) :
  (x == x')%Q -> (y == y')%Q -> Qltb x y = Qltb x' y'.
Proof.
  intros Hx Hy. destruct (Qltb x' y') eqn:E.
  - apply Qltb_lt. apply Qltb_lt in E. lra.
  - apply Qltb_ge. apply Qltb_ge in E. lra.
Qed.

Lemma live_comp now now' key d :
  (now == now')%Q -> live now key d = live now' key d.
Proof.
  intros H. unfold live, alive. destruct (d !! key) as [e | ]; [ | reflexivity].
  destruct (expires e) as [x | ]; [ | reflexivity].
  now rewrite (Qltb_comp now now' x x H).
Qed.

Lemma stored_after_write now' now key v s :
  (now' < now + 60)%Q ->
  stored now' key (after_write now key v s)
  = (Some (Numeral v), Some (Numeral now)).
Proof.
  intros H. unfold stored, after_write, written_db. simpl.
  rewrite live_insert.
  - simpl. rewrite lookup_insert_ne by discriminate.
    now rewrite !lookup_insert_eq.
  - unfold alive. simpl. apply Qltb_lt.
    change (inject_Z 60) with 60%Q. exact H.
Qed.

Lemma expired_after_write now' now key v s :
  (now + 60 <= now')%Q ->
  live now' key (db (after_write now key v s)) = None.
Proof.
  intros H. unfold after_write, written_db, live. simpl.
  rewrite lookup_insert_eq. unfold alive. simpl.
  replace (Qltb now' (now + inject_Z 60)) with false; [reflexivity | ].
  symmetry. apply Qltb_ge. change (inject_Z 60) with 60%Q. exact H.
Qed.

Lemma tokens_after_refill_fresh self now ip s :
  live now (bucket_key ip) (db s) = None ->
  tokens_after_refill self now ip s
  = Some (refill self now (capacity self) now).
Proof.
  intros H. unfold tokens_after_refill, stored. now rewrite H.
Qed.

Lemma tokens_after_refill_le self now ip s t :
  tokens_after_refill self now ip s = Some t -> (t <= capacity self)%Q.
Proof.
  intros Ht.
  destruct (tokens_after_refill_some _ _ _ _ _ Ht) as (tk & l & _ & _ & ->).
  apply refill_le_capacity.
Qed.

Lemma reachable_after_write now key v s :
  reachable s -> reachable (after_write now key v s).
Proof. intros H n. apply H. Qed.

(** In exact arithmetic, from a bucket holding [m] tokens, [m] calls made
    at one instant are let through and the next is denied, provided the
    refill rate is not zero. *)
Lemma allow_many_drains self now ip :
  ~ (refill_rate self == 0)%Q ->
  forall (m : nat) s t,
    reachable s ->
    tokens_after_refill self now ip s = Some t ->
    (t == inject_Z (Z.of_nat m))%Q ->
    map is_allowed (allow_many self now ip (S m) s).1 = (replicate m true ++ [false])%list
    /\ map is_denied (allow_many self now ip (S m) s).1 = (replicate m false ++ [true])%list.
Proof.
  intros Hr. induction m as [ | m IH]; intros s t Hs Ht Hm.
  - assert (Hlt : (t < 1)%Q).
    { change (inject_Z (Z.of_nat 0)) with 0%Q in Hm. lra. }
    simpl. rewrite (allow_request_denied _ _ _ _ _ (Hs _) Ht Hlt Hr). auto.
  - assert (Hge : (1 <= t)%Q).
    { rewrite Hm, Nat2Z.inj_succ. unfold Z.succ. rewrite inject_Z_plus.
      assert (0 <= inject_Z (Z.of_nat m))%Q.
      { change 0%Q with (inject_Z 0). rewrite <- Zle_Qle. lia. }
      change (inject_Z 1) with 1%Q. lra. }
    change (allow_many self now ip (S (S m)) s)
      with (let '(o, s1) := allow_request self now ip s in
            let '(os, s2) := allow_many self now ip (S m) s1 in
            (o :: os, s2)).
    rewrite (allow_request_allowed _ _ _ _ _ (Hs _) Ht Hge (Hs _) (Hs _)).
    set (s1 := after_write now (bucket_key ip) (t - 1) s).
    assert (Hs1 : reachable s1) by now apply reachable_after_write.
    assert (Ht1 : tokens_after_refill self now ip s1
                  = Some (refill self now (t - 1) now)).
    { apply tokens_after_refill_numerals. subst s1.
      apply stored_after_write. lra. }
    assert (Hm1 : (refill self now (t - 1) now == inject_Z (Z.of_nat m))%Q).
    { rewrite refill_same_instant.
      - rewrite Hm, Nat2Z.inj_succ. unfold Z.succ. rewrite inject_Z_plus.
        change (inject_Z 1) with 1%Q. ring.
      - apply tokens_after_refill_le in Ht. lra. }
    destruct (IH s1 _ Hs1 Ht1 Hm1) as [Ha Hd].
    destruct (allow_many self now ip (S m) s1) as [os s2]. simpl in *.
    now rewrite Ha, Hd.
Qed.

(** In exact arithmetic, a fresh identity gets [C] calls through and the
    next denied, for a capacity [C] and a refill rate other than zero. *)
Lemma fresh_identity_drains (C : nat) (rate : Q) now ip s :
  ~ (rate == 0)%Q ->
  reachable s ->
  live now (bucket_key ip) (db s) = None ->
  let self := MkTokenBucket (inject_Z (Z.of_nat C)) rate in
  map is_allowed (allow_many self now ip (S C) s).1 = (replicate C true ++ [false])%list
  /\ map is_denied (allow_many self now ip (S C) s).1 = (replicate C false ++ [true])%list.
Proof.
  intros Hr Hs Hl self.
  apply (allow_many_drains self now ip Hr C s _ Hs
           (tokens_after_refill_fresh self now ip s Hl)).
  apply refill_same_instant. apply Qle_refl.
Qed.

(** With a refill rate of zero no call is ever denied: the division in the
    denial branch raises and the handler lets the call through. *)
Lemma zero_rate_never_denies self now ip s :
  (refill_rate self == 0)%Q ->
  (allow_request self now ip s).1 = Return true.
Proof.
  intros Hr. destruct (allow_request_path self now ip s); auto.
  contradiction.
Qed.

(** C1 fails on the code for a refill rate of zero: with capacity 1 the
    second call at the same instant is let through. *)
Theorem zero_rate_allows_beyond_capacity :
  (allow_many (MkTokenBucket 1 0) 0 "1.2.3.4" 2 fresh_redis).1
  = [Return true; Return true].
Proof. vm_compute. reflexivity. Qed.

(** ** A call followed by a refill to the full *)

Lemma refill_full self now tokens last :
  (capacity self <= tokens + (now - last) * refill_rate self)%Q ->
  refill self now tokens last = capacity self.
Proof.
  intros H. unfold refill.
  destruct (min_cases (capacity self) (tokens + (now - last) * refill_rate self))
    as [[H' _] | [_ ->]]; [lra | reflexivity].
Qed.

(** Against C8 as worded: with capacity 1.005 and one token per second the
    call is let through and [get_stats] at time 1.005 reports 1.0. *)
Lemma full_refill_reported_rounded :
  ~ (forall (C rate : Q) ip s,
       ~ (rate == 0)%Q ->
       reachable s ->
       live 0 (bucket_key ip) (db s) = None ->
       exists q,
         tokens_available
           (get_stats (MkTokenBucket C rate) (C / rate) ip
              (allow_request (MkTokenBucket C rate) 0 ip s).2).1 = Some q
         /\ (q == C)%Q).
Proof.
  intros H.
  destruct (H (201 # 200)%Q 1%Q "1.2.3.4" fresh_redis)
    as (q & Hq & E).
  - discriminate.
  - intros n. reflexivity.
  - reflexivity.
  - vm_compute in Hq. injection Hq as <-. vm_compute in E. discriminate.
Qed.

(** C8, amended: for a capacity [C] that rounding to hundredths leaves as it
    is, and a refill rate other than zero, after one call at time 0 on a
    fresh identity [get_stats] at time [C / refill_rate] reports
    [tokens_available] equal to [C]; for [C >= 1] that call was let through
    and left [C - 1] tokens stored. (For [C < 1] nothing is written, and the
    identity is to have no live record at the time of the [get_stats]
    either, which matters only when that time is negative.) *)
Theorem stats_after_full_refill (C rate : Q) ip s :
  (round2 C == C)%Q ->
  ~ (rate == 0)%Q ->
  reachable s ->
  live 0 (bucket_key ip) (db s) = None ->
  ((C < 1)%Q -> live (C / rate) (bucket_key ip) (db s) = None) ->
  let self := MkTokenBucket C rate in
  let s1 := (allow_request self 0 ip s).2 in
  (exists q,
     tokens_available (get_stats self (capacity self / rate) ip s1).1 = Some q
     /\ (q == capacity self)%Q)
  /\ ((1 <= C)%Q ->
      (allow_request self 0 ip s).1 = Return true
      /\ exists v, stored 0 (bucket_key ip) s1
                   = (Some (Numeral v), Some (Numeral 0%Q))
                   /\ (v == capacity self - 1)%Q).
Proof.
  intros Hh Hr Hs Hl Hl2 self s1.
  pose proof (tokens_after_refill_fresh self 0 ip s Hl) as Ht.
  assert (Ht0 : (refill self 0 (capacity self) 0 == capacity self)%Q).
  { apply refill_same_instant. apply Qle_refl. }
  destruct (Qlt_le_dec C 1) as [Hlt1 | Hge1].
  - (* capacity below 1: the call is denied and nothing is stored *)
    split; [ | intros; lra].
    assert (Hlt : (refill self 0 (capacity self) 0 < 1)%Q).
    { rewrite Ht0. exact Hlt1. }
    subst s1. rewrite (allow_request_denied _ _ _ _ _ (Hs _) Ht Hlt Hr).
    cbn [snd].
    assert (Hl' : (stored (capacity self / rate) (bucket_key ip)
                     (after_read (bucket_key ip) s)).1 = None).
    { unfold stored, after_read. cbn [db].
      unfold self. cbn [capacity]. now rewrite (Hl2 Hlt1). }
    rewrite (get_stats_new self _ ip (after_read (bucket_key ip) s) (Hs _) Hl').
    eexists. split; [reflexivity | reflexivity].
  - assert (Hge : (1 <= refill self 0 (capacity self) 0)%Q).
    { rewrite Ht0. exact Hge1. }
    subst s1.
    rewrite (allow_request_allowed _ _ _ _ _ (Hs _) Ht Hge (Hs _) (Hs _)).
    cbn [fst snd].
    set (v := (refill self 0 (capacity self) 0 - 1)%Q).
    set (s1 := after_write 0 (bucket_key ip) v s).
    assert (Hs1 : reachable s1) by now apply reachable_after_write.
    split.
    2: { intros _. split; [reflexivity | ]. exists v. split.
         - subst s1. apply stored_after_write. reflexivity.
         - subst v. rewrite Ht0. reflexivity. }
    set (T := (capacity self / rate)%Q).
    assert (HT : ((T - 0) * refill_rate self == capacity self)%Q).
    { subst T. unfold self. cbn [refill_rate capacity]. field. exact Hr. }
    destruct (Qlt_le_dec T (0 + 60)) as [Hlive | Hdead].
    + (* the record is still there *)
      pose proof (stored_after_write T 0 (bucket_key ip) v s Hlive) as Hst.
      fold s1 in Hst.
      rewrite (get_stats_active self T ip s1 v 0 (Hs1 _));
        [ | now rewrite Hst | now rewrite Hst].
      eexists. split; [reflexivity | ].
      rewrite refill_full.
      * exact Hh.
      * subst v. rewrite HT, Ht0. unfold self. cbn [capacity]. lra.
    + (* the record has expired *)
      pose proof (expired_after_write T 0 (bucket_key ip) v s Hdead) as Hex.
      fold s1 in Hex.
      assert (Hl' : (stored T (bucket_key ip) s1).1 = None).
      { unfold stored. now rewrite Hex. }
      rewrite (get_stats_new self T ip s1 (Hs1 _) Hl').
      eexists. split; reflexivity.
Qed.

Lemma stats_after_full_refill_witness :
  let self := MkTokenBucket 10 2 in
  let s1 := (allow_request self 0 "1.2.3.4" fresh_redis).2 in
  (exists q,
     tokens_available (get_stats self (capacity self / 2) "1.2.3.4" s1).1 = Some q
     /\ (q == capacity self)%Q)
  /\ ((1 <= 10)%Q ->
      (allow_request self 0 "1.2.3.4" fresh_redis).1 = Return true
      /\ exists v, stored 0 "bucket:1.2.3.4" s1
                   = (Some (Numeral v), Some (Numeral 0%Q))
                   /\ (v == capacity self - 1)%Q).
Proof.
  apply (stats_after_full_refill 10 2 "1.2.3.4" fresh_redis).
  - reflexivity.
  - discriminate.
  - intros n. reflexivity.
  - reflexivity.
  - reflexivity.
Defined.

(** * Further properties of the engine *)

(** ** What a call depends on *)

Lemma bucket_key_inj ip ip' : bucket_key ip = bucket_key ip' -> ip = ip'.
Proof.
  unfold bucket_key. intros H. cbv [String.append] in H. now injection H.
Qed.

Lemma tokens_after_refill_ext self now ip s s' :
  stored now (bucket_key ip) s = stored now (bucket_key ip) s' ->
  tokens_after_refill self now ip s = tokens_after_refill self now ip s'.
Proof. intros H. unfold tokens_after_refill. now rewrite H. Qed.

(** The outcome of a call is fixed by the two stored fields it reads and by
    the fate of the commands it sends. *)
Lemma allow_request_outcome_ext self now ip s s' :
  stored now (bucket_key ip) s = stored now (bucket_key ip) s' ->
  (forall i, (i < 3)%nat ->
     faults s (length (history s) + i) = faults s' (length (history s') + i)) ->
  (allow_request self now ip s).1 = (allow_request self now ip s').1.
Proof.
  intros Hst Hf.
  pose proof (tokens_after_refill_ext self now ip s s' Hst) as Ht.
  pose proof (Hf 0%nat ltac:(lia)) as Hf0.
  pose proof (Hf 1%nat ltac:(lia)) as Hf1.
  pose proof (Hf 2%nat ltac:(lia)) as Hf2.
  rewrite !Nat.add_0_r in Hf0. rewrite !Nat.add_1_r in Hf1.
  replace (length (history s) + 2)%nat with (S (S (length (history s)))) in Hf2 by lia.
  replace (length (history s') + 2)%nat with (S (S (length (history s')))) in Hf2 by lia.
  destruct (allow_request_path self now ip s') as
    [e H0 | H0 Hn | t H0 Hs Hlt Hr | t H0 Hs Hlt Hr | t e H0 Hs Hge H1
     | t e H0 Hs Hge H1 H2 | t H0 Hs Hge H1 H2];
    rewrite <- ?Hf0, <- ?Hf1, <- ?Hf2, <- ?Ht in *.
  - now rewrite (allow_request_read_fails _ _ _ _ _ H0).
  - now rewrite (allow_request_unreadable _ _ _ _ H0 Hn).
  - now rewrite (allow_request_denied _ _ _ _ _ H0 Hs Hlt Hr).
  - now rewrite (allow_request_zero_rate _ _ _ _ _ H0 Hs Hlt Hr).
  - now rewrite (allow_request_write_fails _ _ _ _ _ _ H0 Hs Hge H1).
  - now rewrite (allow_request_expire_fails _ _ _ _ _ _ H0 Hs Hge H1 H2).
  - now rewrite (allow_request_allowed _ _ _ _ _ H0 Hs Hge H1 H2).
Qed.

(** The keyspace a call leaves differs from the one it found at most under
    the key of the caller. *)
Lemma allow_request_db self now ip s :
  db (allow_request self now ip s).2 = db s \/
  exists e, db (allow_request self now ip s).2 = <[bucket_key ip := e]> (db s).
Proof.
  destruct (allow_request_path self now ip s); simpl; auto;
    right; unfold written_db; eauto.
Qed.

(** X1: a call for one identity leaves the record of every other identity
    as it was, and on a store that every command reaches it does not change
    what a later call for another identity returns. *)
Theorem allow_request_isolation self now now' ip ip' s :
  ip <> ip' ->
  let s1 := (allow_request self now ip s).2 in
  db s1 !! bucket_key ip' = db s !! bucket_key ip'
  /\ (reachable s ->
      (allow_request self now' ip' s1).1 = (allow_request self now' ip' s).1).
Proof.
  intros Hne s1.
  assert (Hk : bucket_key ip <> bucket_key ip').
  { intros E. apply Hne. now apply bucket_key_inj. }
  assert (Hl : db s1 !! bucket_key ip' = db s !! bucket_key ip').
  { destruct (allow_request_db self now ip s) as [E | [e E]]; subst s1;
      rewrite E; [reflexivity | now apply lookup_insert_ne]. }
  split; [exact Hl | ].
  intros Hs. apply allow_request_outcome_ext.
  - unfold stored, live. now rewrite Hl.
  - intros i _.
    assert (Hf : faults s1 = faults s).
    { subst s1. destruct (allow_request_path self now ip s); reflexivity. }
    rewrite Hf, !Hs. reflexivity.
Qed.

Lemma allow_request_isolation_witness :
  let self := MkTokenBucket 1 1 in
  let s1 := (allow_request self 0 "1.2.3.4" fresh_redis).2 in
  db s1 !! bucket_key "5.6.7.8" = db fresh_redis !! bucket_key "5.6.7.8"
  /\ (reachable fresh_redis ->
      (allow_request self 0 "5.6.7.8" s1).1
      = (allow_request self 0 "5.6.7.8" fresh_redis).1).
Proof.
  apply (allow_request_isolation (MkTokenBucket 1 1) 0 0 "1.2.3.4" "5.6.7.8").
  discriminate.
Defined.

(** X2: [check_redis_connection] returns [True] exactly when the ping gets
    through; it sends that one [PING] and nothing else and leaves the
    keyspace as it was. *)
Theorem check_redis_connection_probe self s :
  ((check_redis_connection self s).1 = Return true
   <-> faults s (length (history s)) = None)
  /\ db (check_redis_connection self s).2 = db s
  /\ exists ok, sent s (check_redis_connection self s).2 = [(PING, ok)].
Proof.
  unfold check_redis_connection, try_except, bind, ping, send.
  destruct (faults s (length (history s))) as [e | ] eqn:Hf; simpl.
  - split; [ | split].
    + split; [ | discriminate]. destruct e; discriminate.
    + destruct e; reflexivity.
    + exists false. destruct e; simpl; apply sent_app.
  - split; [ | split].
    + split; reflexivity.
    + reflexivity.
    + exists true. apply sent_app.
Qed.

(** X3: [get_stats] on a record that is there but whose [tokens] field is
    empty or does not parse, or whose [last] field does not parse, raises
    [ValueError]; nothing is reported and nothing written. *)
Theorem get_stats_malformed self now ip s :
  faults s (length (history s)) = None ->
  (stored now (bucket_key ip) s).1 = Some Blank
  \/ unparseable (stored now (bucket_key ip) s).1
  \/ ((exists q, (stored now (bucket_key ip) s).1 = Some (Numeral q))
      /\ unparseable (stored now (bucket_key ip) s).2) ->
  (exists msg, (get_stats self now ip s).1 = Raise (ValueError msg))
  /\ db (get_stats self now ip s).2 = db s.
Proof.
  intros Hf H. split; [ | apply get_stats_read_only].
  unfold get_stats, try_except, bind. rewrite (hmget_ok _ _ _ Hf). simpl.
  destruct (stored now (bucket_key ip) s) as [d0 d1]. simpl in *.
  destruct H as [-> | [[j ->] | [[q ->] [j ->]]]]; simpl; eauto.
Qed.

Lemma get_stats_malformed_witness :
  (exists msg,
     (get_stats (MkTokenBucket 10 1) 0 "1.2.3.4"
        (redis_with "1.2.3.4" Blank (Numeral 0))).1 = Raise (ValueError msg))
  /\ db (get_stats (MkTokenBucket 10 1) 0 "1.2.3.4"
           (redis_with "1.2.3.4" Blank (Numeral 0))).2
     = db (redis_with "1.2.3.4" Blank (Numeral 0)).
Proof.
  apply (get_stats_malformed (MkTokenBucket 10 1) 0 "1.2.3.4"
           (redis_with "1.2.3.4" Blank (Numeral 0))).
  - reflexivity.
  - left. reflexivity.
Defined.

(** X4: reading the statistics of any identity, at any time, changes neither
    the outcome of a later [allow_request] nor the keyspace that call
    leaves, on a store that every command reaches. *)
Theorem get_stats_then_allow self now now' ip ip' s :
  reachable s ->
  let s1 := (get_stats self now' ip' s).2 in
  (allow_request self now ip s1).1 = (allow_request self now ip s).1
  /\ db (allow_request self now ip s1).2 = db (allow_request self now ip s).2.
Proof.
  intros Hs s1.
  destruct (get_stats_read_only self now' ip' s) as [Hd _]. fold s1 in Hd.
  assert (Hf : faults s1 = faults s).
  { subst s1. unfold get_stats, try_except, bind, hmget, send.
    rewrite (Hs (length (history s))). simpl.
    destruct (live now' (bucket_key ip') (db s)) as [e | ]; simpl; auto.
    destruct (fields e !! "tokens") as [[q | | j] | ]; simpl; auto.
    destruct (fields e !! "last") as [[l | | j] | ]; reflexivity. }
  assert (Hs1 : reachable s1) by (intros n; rewrite Hf; apply Hs).
  assert (Hst : stored now (bucket_key ip) s1 = stored now (bucket_key ip) s).
  { unfold stored. now rewrite Hd. }
  pose proof (tokens_after_refill_ext self now ip s1 s Hst) as Ht.
  assert (Ho : old_fields now (bucket_key ip) s1 = old_fields now (bucket_key ip) s
               /\ old_expiry now (bucket_key ip) s1 = old_expiry now (bucket_key ip) s).
  { unfold old_fields, old_expiry. now rewrite Hd. }
  destruct Ho as [Ho1 Ho2].
  destruct (tokens_after_refill self now ip s) as [t | ] eqn:E.
  2: { rewrite (allow_request_unreadable _ _ _ _ (Hs1 _) Ht),
               (allow_request_unreadable _ _ _ _ (Hs _) E). auto. }
  destruct (Qlt_le_dec t 1) as [Hlt | Hge].
  - destruct (Qeq_dec (refill_rate self) 0) as [Hr | Hr].
    + rewrite (allow_request_zero_rate _ _ _ _ _ (Hs1 _) Ht Hlt Hr),
              (allow_request_zero_rate _ _ _ _ _ (Hs _) E Hlt Hr). auto.
    + rewrite (allow_request_denied _ _ _ _ _ (Hs1 _) Ht Hlt Hr),
              (allow_request_denied _ _ _ _ _ (Hs _) E Hlt Hr). auto.
  - rewrite (allow_request_allowed _ _ _ _ _ (Hs1 _) Ht Hge (Hs1 _) (Hs1 _)),
            (allow_request_allowed _ _ _ _ _ (Hs _) E Hge (Hs _) (Hs _)).
    split; [reflexivity | ]. simpl. unfold written_db. now rewrite Ho1, Hd.
Qed.

Lemma get_stats_then_allow_witness :
  let self := MkTokenBucket 10 1 in
  let s1 := (get_stats self 3 "5.6.7.8" fresh_redis).2 in
  (allow_request self 0 "1.2.3.4" s1).1
  = (allow_request self 0 "1.2.3.4" fresh_redis).1
  /\ db (allow_request self 0 "1.2.3.4" s1).2
     = db (allow_request self 0 "1.2.3.4" fresh_redis).2.
Proof.
  apply (get_stats_then_allow (MkTokenBucket 10 1) 0 3 "1.2.3.4" "5.6.7.8").
  intros n. reflexivity.
Defined.

(** ** After a call that is let through *)









(** ** Denials *)

(** What a denial says about the state the call found. *)
Lemma denied_inversion self now ip s detail retry_after :
  (allow_request self now ip s).1 = Raise (RateLimitExceeded detail retry_after) ->
  exists t,
    faults s (length (history s)) = None
    /\ tokens_after_refill self now ip s = Some t
    /\ (t < 1)%Q
    /\ ~ (refill_rate self == 0)%Q
    /\ retry_after = (int ((1 - t) / refill_rate self) + 1)%Z
    /\ detail = "Rate limit exceeded. Try again in "
                ++ str_int retry_after ++ " seconds"
    /\ (allow_request self now ip s).2 = after_read (bucket_key ip) s.
Proof.
  intros Ho.
  destruct (faults s (length (history s))) as [e | ] eqn:Hf.
  { rewrite (allow_request_read_fails _ _ _ _ _ Hf) in Ho. discriminate. }
  destruct (tokens_after_refill self now ip s) as [t | ] eqn:Ht.
  2: { rewrite (allow_request_unreadable _ _ _ _ Hf Ht) in Ho. discriminate. }
  destruct (Qlt_le_dec t 1) as [Hlt | Hge].
  - destruct (Qeq_dec (refill_rate self) 0) as [Hr | Hr].
    + rewrite (allow_request_zero_rate _ _ _ _ _ Hf Ht Hlt Hr) in Ho.
      discriminate.
    + rewrite (allow_request_denied _ _ _ _ _ Hf Ht Hlt Hr) in *.
      injection Ho as <- <-. exists t. auto 10.
  - pose proof (allow_request_path self now ip s) as Hp.
    rewrite Ho in Hp. inversion Hp; subst;
      match goal with
      | H1 : tokens_after_refill _ _ _ _ = Some ?a,
        H2 : tokens_after_refill _ _ _ _ = Some ?b |- _ =>
          rewrite H1 in H2; injection H2 as ->; lra
      | H1 : tokens_after_refill _ _ _ _ = Some _,
        H2 : tokens_after_refill _ _ _ _ = None |- _ => congruence
      | H1 : faults _ _ = Some _, H2 : faults _ _ = None |- _ => congruence
      end.
Qed.

Lemma int_nonneg (x : Q) : (0 <= x)%Q -> 0 <= int x.
Proof.
  intros H. rewrite (int_floor x H). rewrite <- (Qfloor_Z 0).
  now apply Qfloor_resp_le.
Qed.

(** X8: with a positive refill rate, the exception of every denial has
    status 429, a detail that quotes the delay, and the one header
    [Retry-After] holding that delay in decimal, which is at least 1. *)
Theorem denial_headers self now ip s detail retry_after :
  (0 < refill_rate self)%Q ->
  (allow_request self now ip s).1 = Raise (RateLimitExceeded detail retry_after) ->
  status_code (RateLimitExceeded detail retry_after) = Some 429
  /\ headers (RateLimitExceeded detail retry_after)
     = Some [("Retry-After", str_int retry_after)]
  /\ detail = "Rate limit exceeded. Try again in "
              ++ str_int retry_after ++ " seconds"
  /\ 1 <= retry_after.
Proof.
  intros Hr Ho.
  destruct (denied_inversion _ _ _ _ _ _ Ho)
    as (t & _ & _ & Hlt & _ & Hra & Hd & _).
  assert (Hpos : 1 <= retry_after).
  { rewrite Hra.
    assert (0 <= int ((1 - t) / refill_rate self)); [ | lia].
    apply int_nonneg, Qlt_le_weak. now apply quotient_pos. }
  split; [reflexivity | ]. split; [ | auto]. simpl.
  destruct (Z.eqb_spec retry_after 0); [lia | reflexivity].
Qed.

Lemma denial_headers_witness :
  status_code (RateLimitExceeded "Rate limit exceeded. Try again in 2 seconds" 2)
  = Some 429
  /\ headers (RateLimitExceeded "Rate limit exceeded. Try again in 2 seconds" 2)
     = Some [("Retry-After", str_int 2)]
  /\ "Rate limit exceeded. Try again in 2 seconds"
     = "Rate limit exceeded. Try again in " ++ str_int 2 ++ " seconds"
  /\ 1 <= 2.
Proof.
  apply (denial_headers (MkTokenBucket 10 1) 0 "1.2.3.4"
           (redis_with "1.2.3.4" (Numeral 0) (Numeral 0))).
  - reflexivity.
  - vm_compute. reflexivity.
Defined.

(** ** The passing of time *)

Lemma min_mono (a b b' : Q) : (b <= b')%Q -> (min_ a b <= min_ a b')%Q.
Proof.
  intros H. apply min_glb; [apply min_le_l | ].
  apply Qle_trans with b; [apply min_le_r | exact H].
Qed.

Lemma live_later now now' key d :
  (now <= now')%Q ->
  live now' key d = live now key d \/ live now' key d = None.
Proof.
  intros H. unfold live. destruct (d !! key) as [e | ]; [ | now left].
  unfold alive. destruct (expires e) as [x | ]; [ | now left].
  destruct (Qltb now' x) eqn:E; [ | now right].
  left. apply Qltb_lt in E.
  replace (Qltb now x) with true; [reflexivity | ].
  symmetry. apply Qltb_lt. lra.
Qed.

Lemma stored_later now now' key s :
  (now <= now')%Q ->
  stored now' key s = stored now key s \/ stored now' key s = (None, None).
Proof.
  intros H. unfold stored.
  destruct (live_later now now' key (db s) H) as [-> | ->]; auto.
Qed.

(** X9: the refilled count a call works from never goes down as the clock
    advances, for a non-negative refill rate: whatever count can be read at
    one time, a count at least as large can be read at any later time,
    whether the record is still there or has expired meanwhile. *)
Theorem tokens_after_refill_monotone self now1 now2 ip s t1 :
  (0 <= refill_rate self)%Q ->
  (now1 <= now2)%Q ->
  tokens_after_refill self now1 ip s = Some t1 ->
  exists t2, tokens_after_refill self now2 ip s = Some t2 /\ (t1 <= t2)%Q.
Proof.
  intros Hr Hn Ht.
  destruct (tokens_after_refill_some _ _ _ _ _ Ht)
    as (tokens & last & H0 & H1 & ->).
  unfold tokens_after_refill.
  destruct (stored_later now1 now2 (bucket_key ip) s Hn) as [-> | ->].
  - destruct (stored now1 (bucket_key ip) s) as [d0 d1]. simpl in *.
    rewrite H0.
    destruct d1 as [[l | | j] | ]; simpl in *; try discriminate;
      injection H1 as <-; eexists; (split; [reflexivity | ]);
      unfold refill; apply min_mono.
    + assert ((now1 - l) * refill_rate self <= (now2 - l) * refill_rate self)%Q.
      { apply Qmult_le_compat_r; lra. }
      lra.
    + assert ((now1 - now1) * refill_rate self == 0)%Q by ring.
      assert ((now2 - now2) * refill_rate self == 0)%Q by ring. lra.
    + assert ((now1 - now1) * refill_rate self == 0)%Q by ring.
      assert ((now2 - now2) * refill_rate self == 0)%Q by ring. lra.
  - simpl. eexists. split; [reflexivity | ].
    rewrite (refill_same_instant self now2 (capacity self)) by apply Qle_refl.
    apply refill_le_capacity.
Qed.

Lemma tokens_after_refill_monotone_witness :
  exists t2,
    tokens_after_refill (MkTokenBucket 10 1) 7 "1.2.3.4"
      (redis_with "1.2.3.4" (Numeral 2) (Numeral 1)) = Some t2
    /\ (min_ 10 (2 + (3 - 1) * 1) <= t2)%Q.
Proof.
  apply (tokens_after_refill_monotone (MkTokenBucket 10 1) 3 7 "1.2.3.4"
           (redis_with "1.2.3.4" (Numeral 2) (Numeral 1))).
  - discriminate.
  - discriminate.
  - reflexivity.
Defined.

(** * The routes of [main.py] *)

(** A call returns [True] or raises [RateLimitExceeded]. *)
Lemma allow_request_returns_or_denies_aux self now ip s :
  (allow_request self now ip s).1 = Return true \/
  exists detail retry_after,
    (allow_request self now ip s).1 = Raise (RateLimitExceeded detail retry_after).
Proof.
  destruct (allow_request_path self now ip s); auto.
  right. unfold denial. eauto.
Qed.

Lemma denial_delay_positive self now ip s detail retry_after :
  (0 < refill_rate self)%Q ->
  (allow_request self now ip s).1 = Raise (RateLimitExceeded detail retry_after) ->
  1 <= retry_after
  /\ detail = "Rate limit exceeded. Try again in "
              ++ str_int retry_after ++ " seconds".
Proof.
  intros Hr Ho.
  destruct (denied_inversion _ _ _ _ _ _ Ho)
    as (t & _ & _ & Hlt & _ & Hra & Hd & _).
  split; [ | exact Hd]. rewrite Hra.
  assert (0 <= int ((1 - t) / refill_rate self)); [ | lia].
  apply int_nonneg, Qlt_le_weak. now apply quotient_pos.
Qed.

(** X11: [/limited] either returns its success body or raises an
    [HTTPException] with status 429 whose [Retry-After] header holds a delay
    of at least one second, quoted in the detail; no other exception leaves
    it, and when the first command to the store fails the request
    succeeds. *)
Theorem limited_responses now host s :
  let success := Content [("message", PyStr "This is a limited use API");
                          ("ip", PyStr host);
                          ("status", PyStr "success")] in
  ((Main.limited now host s).1 = success
   \/ exists retry_after,
        1 <= retry_after
        /\ (Main.limited now host s).1
           = HTTPException 429
               ("Rate limit exceeded. Try again in "
                ++ str_int retry_after ++ " seconds")
               (Some [("Retry-After", str_int retry_after)]))
  /\ ((exists e, faults s (length (history s)) = Some e) ->
      (Main.limited now host s).1 = success).
Proof.
  intros success. subst success. unfold Main.limited. split.
  - destruct (allow_request_returns_or_denies_aux Main.bucket now host s)
      as [H | (d & r & H)].
    + destruct (allow_request Main.bucket now host s) as [o s'].
      simpl in H. subst o. now left.
    + right. exists r.
      destruct (denial_delay_positive Main.bucket now host s d r eq_refl H)
        as [Hr ->].
      destruct (allow_request Main.bucket now host s) as [o s'].
      simpl in H. subst o. split; [exact Hr | ]. simpl.
      destruct (Z.eqb_spec r 0); [lia | reflexivity].
  - intros [e He]. now rewrite (allow_request_read_fails _ _ _ _ _ He).
Qed.

(** From a bucket holding [m] tokens at one instant: [m] times [True],
    then the denial computed from an empty bucket. *)
Lemma allow_many_drains_exact self now ip :
  ~ (refill_rate self == 0)%Q ->
  forall (m : nat) s t,
    reachable s ->
    tokens_after_refill self now ip s = Some t ->
    (t == inject_Z (Z.of_nat m))%Q ->
    exists t0,
      (t0 == 0)%Q
      /\ (allow_many self now ip (S m) s).1
         = (replicate m (Return true)
            ++ [Raise (denial (int ((1 - t0) / refill_rate self) + 1))])%list.
Proof.
  intros Hr. induction m as [ | m IH]; intros s t Hs Ht Hm.
  - assert (Hlt : (t < 1)%Q).
    { change (inject_Z (Z.of_nat 0)) with 0%Q in Hm. lra. }
    exists t. split; [exact Hm | ].
    simpl. now rewrite (allow_request_denied _ _ _ _ _ (Hs _) Ht Hlt Hr).
  - assert (Hge : (1 <= t)%Q).
    { rewrite Hm, Nat2Z.inj_succ. unfold Z.succ. rewrite inject_Z_plus.
      assert (0 <= inject_Z (Z.of_nat m))%Q.
      { change 0%Q with (inject_Z 0). rewrite <- Zle_Qle. lia. }
      change (inject_Z 1) with 1%Q. lra. }
    change (allow_many self now ip (S (S m)) s)
      with (let '(o, s1) := allow_request self now ip s in
            let '(os, s2) := allow_many self now ip (S m) s1 in
            (o :: os, s2)).
    rewrite (allow_request_allowed _ _ _ _ _ (Hs _) Ht Hge (Hs _) (Hs _)).
    set (s1 := after_write now (bucket_key ip) (t - 1) s).
    assert (Hs1 : reachable s1) by now apply reachable_after_write.
    assert (Ht1 : tokens_after_refill self now ip s1
                  = Some (refill self now (t - 1) now)).
    { apply tokens_after_refill_numerals. subst s1.
      apply stored_after_write. lra. }
    assert (Hm1 : (refill self now (t - 1) now == inject_Z (Z.of_nat m))%Q).
    { rewrite refill_same_instant.
      - rewrite Hm, Nat2Z.inj_succ. unfold Z.succ. rewrite inject_Z_plus.
        change (inject_Z 1) with 1%Q. ring.
      - apply tokens_after_refill_le in Ht. lra. }
    destruct (IH s1 _ Hs1 Ht1 Hm1) as (t0 & H0 & Ha).
    exists t0. split; [exact H0 | ].
    destruct (allow_many self now ip (S m) s1) as [os s2]. simpl in *.
    now rewrite Ha.
Qed.

Lemma limited_many_allow_many now host n : forall s,
  (limited_many now host n s).1
  = map (route_outcome host) (allow_many Main.bucket now host n s).1.
Proof.
  induction n as [ | n IH]; intros s; [reflexivity | ].
  simpl. unfold Main.limited.
  destruct (allow_request Main.bucket now host s) as [[b | e] s1];
    specialize (IH s1);
    destruct (limited_many now host n s1) as [os s2];
    destruct (allow_many Main.bucket now host n s1) as [os' s2'];
    simpl in *; now rewrite IH.
Qed.

(** X12: a client without a live record, on a store that every command
    reaches, gets the success body for ten requests to [/limited] made at
    one instant; the eleventh is refused with status 429 and
    [Retry-After: 2]. *)
Theorem limited_ten_then_429 now host s :
  reachable s ->
  live now (bucket_key host) (db s) = None ->
  (limited_many now host 11 s).1
  = (replicate 10 (Content [("message", PyStr "This is a limited use API");
                            ("ip", PyStr host);
                            ("status", PyStr "success")])
     ++ [HTTPException 429 "Rate limit exceeded. Try again in 2 seconds"
           (Some [("Retry-After", "2")])])%list.
Proof.
  intros Hs Hl. rewrite limited_many_allow_many.
  assert (Hr : ~ (refill_rate Main.bucket == 0)%Q) by discriminate.
  destruct (allow_many_drains_exact Main.bucket now host Hr 10 s _ Hs
              (tokens_after_refill_fresh Main.bucket now host s Hl))
    as (t0 & H0 & ->).
  { apply refill_same_instant. apply Qle_refl. }
  assert (Hi : int ((1 - t0) / refill_rate Main.bucket) = 1).
  { assert (E : ((1 - t0) / refill_rate Main.bucket == 1)%Q).
    { rewrite H0. reflexivity. }
    rewrite int_floor by (rewrite E; discriminate).
    now rewrite (Qfloor_comp _ _ E). }
  rewrite Hi. reflexivity.
Qed.

Lemma limited_ten_then_429_witness :
  (limited_many 0 "1.2.3.4" 11 fresh_redis).1
  = (replicate 10 (Content [("message", PyStr "This is a limited use API");
                            ("ip", PyStr "1.2.3.4");
                            ("status", PyStr "success")])
     ++ [HTTPException 429 "Rate limit exceeded. Try again in 2 seconds"
           (Some [("Retry-After", "2")])])%list.
Proof.
  apply (limited_ten_then_429 0 "1.2.3.4" fresh_redis).
  - intros n. reflexivity.
  - reflexivity.
Defined.

(** X13: [/health] never raises and never touches the keyspace. It answers
    200 with ["healthy"] exactly when the ping gets through, and otherwise
    503 with ["unhealthy"] and an error text: ["Redis connection failed"]
    for a connection error, the message of the error for any other. *)
Theorem health_check_reports now s :
  db (Main.health_check now s).2 = db s
  /\ (faults s (length (history s)) = None ->
      (Main.health_check now s).1
      = Content (MkJSONResponse 200
                   [("status", PyStr "healthy");
                    ("redis", PyStr "connected");
                    ("timestamp", PyNum now)]))
  /\ (forall e, faults s (length (history s)) = Some e ->
      (Main.health_check now s).1
      = Content (MkJSONResponse 503
                   [("status", PyStr "unhealthy");
                    ("redis", PyStr "disconnected");
                    ("error",
                     PyStr match e with
                           | ConnectionError _ => "Redis connection failed"
                           | TimeoutError m | ResponseError m
                           | OtherError _ m => m
                           end);
                    ("timestamp", PyNum now)])).
Proof.
  unfold Main.health_check, check_redis_connection, try_except, bind, ping, send.
  destruct (faults s (length (history s))) as [e | ] eqn:Hf.
  - split; [destruct e; reflexivity | ]. split; [discriminate | ].
    intros e' [= <-]. destruct e; reflexivity.
  - split; [reflexivity | ]. split; [reflexivity | discriminate].
Qed.

(** X14: [/stats/{ip}] never touches the keyspace. When the read fails it
    raises an [HTTPException] with status 500 whose detail is the message of
    the store's error; for an identity without a live record it returns the
    ["new"] statistics of the default bucket under the key ["stats"]. *)
Theorem stats_route now ip s :
  db (Main.get_stats now ip s).2 = db s
  /\ (forall e, faults s (length (history s)) = Some e ->
      (Main.get_stats now ip s).1
      = HTTPException 500
          match e with
          | ConnectionError m | TimeoutError m | ResponseError m
          | OtherError _ m => m
          end None)
  /\ (faults s (length (history s)) = None ->
      live now (bucket_key ip) (db s) = None ->
      (Main.get_stats now ip s).1
      = Content [("ip", JStr ip);
                 ("stats", JDict [("tokens_available", PyNum 10);
                                  ("capacity", PyNum 10);
                                  ("refill_rate", PyNum 1);
                                  ("status", PyStr "new")])]).
Proof.
  unfold Main.get_stats. split; [ | split].
  - destruct (get_stats_read_only Main.bucket now ip s) as [Hd _].
    destruct (get_stats Main.bucket now ip s) as [[d | e] s']; exact Hd.
  - intros e He. rewrite (get_stats_read_fails _ _ _ _ _ He).
    destruct e; reflexivity.
  - intros Hf Hl.
    assert (H0 : (stored now (bucket_key ip) s).1 = None).
    { unfold stored. now rewrite Hl. }
    now rewrite (get_stats_new _ _ _ _ Hf H0).
Qed.

(** X15: when the write of a call gets through and the expiry refresh after
    it fails, for an identity that had no live record, the call still
    returns [True] and the record it wrote has no expiry: it is read back
    unchanged at every later or earlier time. *)
Theorem failed_expiry_leaves_record self now ip s t e :
  faults s (length (history s)) = None ->
  faults s (S (length (history s))) = None ->
  faults s (S (S (length (history s)))) = Some e ->
  live now (bucket_key ip) (db s) = None ->
  tokens_after_refill self now ip s = Some t ->
  (1 <= t)%Q ->
  (allow_request self now ip s).1 = Return true
  /\ forall now',
       stored now' (bucket_key ip) (allow_request self now ip s).2
       = (Some (Numeral (t - 1)), Some (Numeral now)).
Proof.
  intros H0 H1 H2 Hl Ht Hge.
  rewrite (allow_request_expire_fails _ _ _ _ _ _ H0 Ht Hge H1 H2).
  split; [reflexivity | ]. intros now'.
  unfold stored, after_failed_expire, written_db, old_expiry. cbn [snd db].
  rewrite Hl, live_insert by reflexivity. simpl.
  rewrite lookup_insert_ne by discriminate. now rewrite !lookup_insert_eq.
Qed.

Lemma failed_expiry_leaves_record_witness :
  (allow_request (MkTokenBucket 10 1) 0 "1.2.3.4" flaky_redis).1 = Return true
  /\ forall now',
       stored now' (bucket_key "1.2.3.4")
         (allow_request (MkTokenBucket 10 1) 0 "1.2.3.4" flaky_redis).2
       = (Some (Numeral (min_ 10 (10 + (0 - 0) * 1) - 1)), Some (Numeral 0%Q)).
Proof.
  apply (failed_expiry_leaves_record (MkTokenBucket 10 1) 0 "1.2.3.4"
           flaky_redis (min_ 10 (10 + (0 - 0) * 1)) (TimeoutError "Timeout"));
    try reflexivity.
  discriminate.
Defined.
